(** * QuestionCard: answer evaluation, hint generation and fragment selection

    A shallow embedding of the logic of [src/components/QuestionCard.tsx]:
    the closures [generateHint], [toggleHint], [handleMCSelect],
    [handleInputSubmit], [handlePartClick], [handleRearrangeSubmit] and
    [isCorrect] of the React component, together with the four pieces of
    component state they read and write.

    JavaScript strings are sequences of UTF-16 code units; they are modelled
    as lists of code units so that [length], [charAt], [split], [trim] and
    the regular expression [/\s+/g] mean here what they mean in the
    component. *)

From Stdlib Require Import List NArith Arith Bool Lia Permutation.
From Stdlib Require Import Ascii String.
From Stdlib Require Decimal DecimalNat.
Import ListNotations.

(** ** JavaScript strings *)

Module Js.

(** A UTF-16 code unit. *)
Definition unit16 := N.

(** A JavaScript string value. *)
Definition jsstring := list unit16.

(** An ASCII literal as a JavaScript string. *)
Definition lit (s : string) : jsstring :=
  map N_of_ascii (list_ascii_of_string s).

Definition SPACE : unit16 := 32%N.

(** [s.length] *)
Definition strlen (s : jsstring) : nat := List.length s.

(** [a === b] on two strings: same code units in the same order. *)
Fixpoint str_eqb (a b : jsstring) : bool :=
  match a, b with
  | [], [] => true
  | x :: a', y :: b' => N.eqb x y && str_eqb a' b'
  | _, _ => false
  end.

(** Truthiness of a string: every string but the empty one. *)
Definition truthy (s : jsstring) : bool :=
  match s with
  | [] => false
  | _ :: _ => true
  end.

(** Truthiness of a [string | null] value: [null] and the empty string are
    falsy. *)
Definition truthy_opt (o : option jsstring) : bool :=
  match o with
  | None => false
  | Some s => truthy s
  end.

(** The code units matched by [\s], which are also the ones [trim] strips
    (ECMAScript WhiteSpace and LineTerminator): TAB, LF, VT, FF, CR, SP,
    NBSP, U+1680, U+2000..U+200A, LS, PS, U+202F, U+205F, U+3000, U+FEFF. *)
Definition isWhiteSpace (c : unit16) : bool :=
  ((9 <=? c) && (c <=? 13) || (c =? 32) || (c =? 160) || (c =? 5760)
   || (8192 <=? c) && (c <=? 8202) || (c =? 8232) || (c =? 8233)
   || (c =? 8239) || (c =? 8287) || (c =? 12288) || (c =? 65279))%N.

(** Drop the leading white space. *)
Fixpoint trimStart (s : jsstring) : jsstring :=
  match s with
  | [] => []
  | c :: r => if isWhiteSpace c then trimStart r else s
  end.

(** Drop the trailing white space. *)
Definition trimEnd (s : jsstring) : jsstring :=
  rev (trimStart (rev s)).

(** [s.trim()] *)
Definition trim (s : jsstring) : jsstring :=
  trimEnd (trimStart s).

(** [s.replace(/\s+/g, ' ')]: every maximal run of white space becomes one
    space.  [inRun] tells that the previous code unit was white space, so
    that the replacement for the current run is already emitted. *)
Fixpoint collapseFrom (inRun : bool) (s : jsstring) : jsstring :=
  match s with
  | [] => []
  | c :: r =>
      if isWhiteSpace c
      then (if inRun then collapseFrom true r else SPACE :: collapseFrom true r)
      else c :: collapseFrom false r
  end.

Definition collapseWhiteSpace (s : jsstring) : jsstring :=
  collapseFrom false s.

(** The words of a string: its maximal runs of code units that are not
    white space, from left to right. *)
Fixpoint words (s : jsstring) : list jsstring :=
  match s with
  | [] => []
  | c :: r =>
      if isWhiteSpace c then words r
      else match r with
           | [] => [[c]]
           | c' :: _ =>
               if isWhiteSpace c' then [c] :: words r
               else match words r with
                    | w :: ws => (c :: w) :: ws
                    | [] => [[c]]
                    end
           end
  end.

(** [s.split(sep)] for a separator of one code unit.  The result is never
    empty: the empty string splits into one empty token. *)
Fixpoint split (sep : unit16) (s : jsstring) : list jsstring :=
  match s with
  | [] => [[]]
  | c :: r =>
      if N.eqb c sep then [] :: split sep r
      else match split sep r with
           | w :: ws => (c :: w) :: ws
           | [] => [[c]]
           end
  end.

(** [l.join(sep)] *)
Fixpoint join (sep : jsstring) (l : list jsstring) : jsstring :=
  match l with
  | [] => []
  | w :: ws =>
      match ws with
      | [] => w
      | _ :: _ => w ++ sep ++ join sep ws
      end
  end.

(** [l.slice(0, n)] for a count [n] that is not negative. *)
Definition slice0 {A : Type} (n : nat) (l : list A) : list A := firstn n l.

(** [s.charAt(0)]: the first code unit as a string, or the empty string. *)
Definition charAt0 (s : jsstring) : jsstring :=
  match s with
  | [] => []
  | c :: _ => [c]
  end.

(** [l.includes(x)] on an array of strings. *)
Definition includes (l : list jsstring) (x : jsstring) : bool :=
  existsb (str_eqb x) l.

(** [l.filter(p => p !== x)] *)
Definition without (x : jsstring) (l : list jsstring) : list jsstring :=
  filter (fun p => negb (str_eqb p x)) l.

(** Equality of strings is decidable. *)
Definition jsstring_eq_dec (a b : jsstring) : {a = b} + {a <> b} :=
  list_eq_dec N.eq_dec a b.

(** The decimal digits of a number that is a length, as the template
    literal [`${n}`] prints them. *)
Fixpoint digits (d : Decimal.uint) : jsstring :=
  match d with
  | Decimal.Nil => []
  | Decimal.D0 r => 48%N :: digits r
  | Decimal.D1 r => 49%N :: digits r
  | Decimal.D2 r => 50%N :: digits r
  | Decimal.D3 r => 51%N :: digits r
  | Decimal.D4 r => 52%N :: digits r
  | Decimal.D5 r => 53%N :: digits r
  | Decimal.D6 r => 54%N :: digits r
  | Decimal.D7 r => 55%N :: digits r
  | Decimal.D8 r => 56%N :: digits r
  | Decimal.D9 r => 57%N :: digits r
  end.

Definition numberToString (n : nat) : jsstring := digits (Nat.to_uint n).

Definition isDigit (c : unit16) : bool := ((48 <=? c) && (c <=? 57))%N.

(** [toLowerCase] and [toUpperCase] restricted to strings of ASCII code
    units, where they only move the 26 letters.  The component is verified
    for arbitrary case mappings; these two give concrete runs. *)
Definition lowerUnit (c : unit16) : unit16 :=
  if ((65 <=? c) && (c <=? 90))%N then (c + 32)%N else c.

Definition upperUnit (c : unit16) : unit16 :=
  if ((97 <=? c) && (c <=? 122))%N then (c - 32)%N else c.

Definition toLowerCaseAscii (s : jsstring) : jsstring := map lowerUnit s.
Definition toUpperCaseAscii (s : jsstring) : jsstring := map upperUnit s.

End Js.

Import Js.

(** ** Data model *)

(** Modelled from the spec: the enumeration [QuestionType] of the module
    [../types], which the component imports and which is not among the
    sources.  The three variants are the ones the component names; [OTHER]
    stands for any run-time value of the [type] field that is none of them
    (question data is not validated by the component). *)
Inductive QuestionType : Type :=
  | MULTIPLE_CHOICE
  | FILL_IN_BLANK
  | REARRANGE
  | OTHER (tag : jsstring).

(** Modelled from the spec: the interface [Question] of the module
    [../types].  The component reads [options], [rearrangeParts],
    [imageUrl] and [audioUrl] as optional fields. *)
Record Question : Type := mkQuestion {
  id : jsstring;
  type : QuestionType;
  questionText : jsstring;
  explanation : jsstring;
  correctAnswer : jsstring;
  options : option (list jsstring);
  rearrangeParts : option (list jsstring);
  imageUrl : option jsstring;
  audioUrl : option jsstring
}.

(** [question.type === QuestionType.REARRANGE] *)
Definition isRearrange (t : QuestionType) : bool :=
  match t with
  | REARRANGE => true
  | _ => false
  end.

(** The four [useState] cells of the component. *)
Record CardState : Type := mkCardState {
  inputVal : jsstring;
  selectedParts : list jsstring;
  showHint : bool;
  hintText : jsstring
}.

(** The state of a freshly mounted card; also what the effect on
    [question.id] writes. *)
Definition initialState : CardState :=
  {| inputVal := []; selectedParts := []; showHint := false; hintText := [] |}.

Definition setInputVal (v : jsstring) (st : CardState) : CardState :=
  {| inputVal := v; selectedParts := selectedParts st;
     showHint := showHint st; hintText := hintText st |}.

Definition setSelectedParts (f : list jsstring -> list jsstring)
    (st : CardState) : CardState :=
  {| inputVal := inputVal st; selectedParts := f (selectedParts st);
     showHint := showHint st; hintText := hintText st |}.

Definition setShowHint (b : bool) (st : CardState) : CardState :=
  {| inputVal := inputVal st; selectedParts := selectedParts st;
     showHint := b; hintText := hintText st |}.

Definition setHintText (t : jsstring) (st : CardState) : CardState :=
  {| inputVal := inputVal st; selectedParts := selectedParts st;
     showHint := showHint st; hintText := t |}.

(** The [useEffect] that runs when [question.id] changes. *)
Definition resetOnQuestionChange (st : CardState) : CardState :=
  setHintText [] (setShowHint false (setSelectedParts (fun _ => [])
    (setInputVal [] st))).

(** The source of [Math.random()]: an unbounded supply of draws and the
    number of draws taken so far. *)
Record RandomSource : Type := mkRandomSource {
  supply : nat -> nat;
  consumed : nat
}.

(** [Math.floor(Math.random() * n)] for [n > 0]: one draw, giving an index
    below [n]. *)
Definition randomIndex (rs : RandomSource) (n : nat) : nat * RandomSource :=
  (supply rs (consumed rs) mod n,
   {| supply := supply rs; consumed := S (consumed rs) |}).

(** ** The text of the hint templates, as UTF-16 code units *)

(** The template text [Hãy loại bỏ phương án: ] and the opening quotation
    mark (code unit 34). *)
Definition MC_HINT_PREFIX : jsstring :=
  [72; 227; 121; 32; 108; 111; 7841; 105; 32; 98; 7887; 32; 112; 104; 432;
   417; 110; 103; 32; 225; 110; 58; 32; 34]%N.

(** The closing quotation mark and [. Đó không phải là đáp án đúng.] *)
Definition MC_HINT_SUFFIX : jsstring :=
  [34; 46; 32; 272; 243; 32; 107; 104; 244; 110; 103; 32; 112; 104; 7843;
   105; 32; 108; 224; 32; 273; 225; 112; 32; 225; 110; 32; 273; 250; 110;
   103; 46]%N.

(** [Từ này có ] *)
Definition FIB_HINT_PREFIX : jsstring :=
  [84; 7915; 32; 110; 224; 121; 32; 99; 243; 32]%N.

(** [ chữ cái. Bắt đầu bằng chữ ] and the opening quotation mark. *)
Definition FIB_HINT_MIDDLE : jsstring :=
  [32; 99; 104; 7919; 32; 99; 225; 105; 46; 32; 66; 7855; 116; 32; 273;
   7847; 117; 32; 98; 7857; 110; 103; 32; 99; 104; 7919; 32; 34]%N.

(** Three dots, the closing quotation mark and a full stop. *)
Definition FIB_HINT_SUFFIX : jsstring := [46; 46; 46; 34; 46]%N.

(** [Câu bắt đầu bằng cụm từ: ] and the opening quotation mark. *)
Definition REARRANGE_HINT_PREFIX : jsstring :=
  [67; 226; 117; 32; 98; 7855; 116; 32; 273; 7847; 117; 32; 98; 7857; 110;
   103; 32; 99; 7909; 109; 32; 116; 7915; 58; 32; 34]%N.

(** Three dots and the closing quotation mark. *)
Definition REARRANGE_HINT_SUFFIX : jsstring := [46; 46; 46; 34]%N.

(** ** Sample questions *)

Module Samples.

Definition question (t : QuestionType) (answer : jsstring)
    (opts parts : option (list jsstring)) : Question :=
  {| id := lit "q1"; type := t; questionText := lit "?";
     explanation := lit "because"; correctAnswer := answer;
     options := opts; rearrangeParts := parts;
     imageUrl := None; audioUrl := None |}.

(** A multiple-choice question with one correct option. *)
Definition capitalQ : Question :=
  question MULTIPLE_CHOICE (lit "Paris")
    (Some [lit "London"; lit "Paris"; lit "Rome"]) None.

(** A multiple-choice question whose only option is the correct one. *)
Definition singleOptionQ : Question :=
  question MULTIPLE_CHOICE (lit "Paris") (Some [lit "Paris"]) None.

(** A multiple-choice question one of whose options is the empty string. *)
Definition blankOptionQ : Question :=
  question MULTIPLE_CHOICE (lit "b") (Some [lit ""; lit "b"]) None.

(** A question whose type is none of the three variants. *)
Definition essayQ : Question :=
  question (OTHER (lit "ESSAY")) (lit "Paris") None None.

Definition blankQ : Question :=
  question FILL_IN_BLANK (lit " paris ") None None.

Definition catsQ : Question :=
  question REARRANGE (lit "I love cats") None
    (Some [lit "cats"; lit "I"; lit "love"]).

(** A sentence in which one word occurs twice. *)
Definition theDogQ : Question :=
  question REARRANGE (lit "the cat saw the dog") None
    (Some [lit "the"; lit "cat"; lit "saw"; lit "the"; lit "dog"]).

(** A rearrange question whose canonical sentence is empty. *)
Definition emptySentenceQ : Question :=
  question REARRANGE (lit "") None (Some [lit ""]).

Definition randomSource : RandomSource :=
  {| supply := fun n => 7 * n + 3; consumed := 0 |}.

Definition cityQ : Question :=
  question FILL_IN_BLANK (lit "Paris") None None.

(** A fill-in-the-blank question whose correct answer is two spaces. *)
Definition spacesQ : Question :=
  question FILL_IN_BLANK (lit "  ") None None.

(** A question with an audio address that has two spaces in it. *)
Definition audioQ : Question :=
  {| id := lit "q2"; type := FILL_IN_BLANK; questionText := lit "?";
     explanation := lit "because"; correctAnswer := lit "Paris";
     options := None; rearrangeParts := None;
     imageUrl := None; audioUrl := Some (lit "/audio/unit 1 a.mp3") |}.

End Samples.

(** ** The component *)

Section Component.

(** [String.prototype.toLowerCase] and [String.prototype.toUpperCase].  The
    Unicode case tables are not part of the component; what follows holds
    for every pair of case mappings. *)
Variable toLowerCase : jsstring -> jsstring.
Variable toUpperCase : jsstring -> jsstring.

(** A lemma depends on a case mapping only when its statement names it. *)
Set Default Proof Using "Type".

(** *** Hint generation *)

(** [question.options?.filter(opt => opt !== question.correctAnswer) || []] *)
Definition wrongOptionsOf (q : Question) : list jsstring :=
  match options q with
  | Some opts => without (correctAnswer q) opts
  | None => []
  end.

(** [Math.max(1, Math.min(2, Math.floor(n / 2)))] *)
Definition revealCountOf (n : nat) : nat :=
  Nat.max 1 (Nat.min 2 (n / 2)).

(** The [switch] of [generateHint]: the value of [text] when it is left, and
    the random source after it.  Only the first case draws, and only when
    there is a wrong option to pick. *)
Definition hintSwitch (q : Question) (rs : RandomSource)
    : jsstring * RandomSource :=
  match type q with
  | MULTIPLE_CHOICE =>
      let wrongOptions := wrongOptionsOf q in
      if 0 <? List.length wrongOptions then
        let (i, rs') := randomIndex rs (List.length wrongOptions) in
        let randomWrong := nth i wrongOptions [] in
        (MC_HINT_PREFIX ++ randomWrong ++ MC_HINT_SUFFIX, rs')
      else ([], rs)
  | FILL_IN_BLANK =>
      let answer := trim (correctAnswer q) in
      let firstChar := charAt0 answer in
      (FIB_HINT_PREFIX ++ numberToString (strlen answer) ++ FIB_HINT_MIDDLE
         ++ toUpperCase firstChar ++ FIB_HINT_SUFFIX, rs)
  | REARRANGE =>
      let words := split SPACE (correctAnswer q) in
      let revealCount := revealCountOf (List.length words) in
      let hintPhrase := join [SPACE] (slice0 revealCount words) in
      (REARRANGE_HINT_PREFIX ++ hintPhrase ++ REARRANGE_HINT_SUFFIX, rs)
  | OTHER _ => ([], rs)
  end.

(** [generateHint]: nothing happens when [hintText] is truthy; otherwise the
    switch runs and its text is stored. *)
Definition generateHint (q : Question) (st : CardState) (rs : RandomSource)
    : CardState * RandomSource :=
  if truthy (hintText st) then (st, rs)
  else
    let (text, rs') := hintSwitch q rs in
    (setHintText text st, rs').

(** [toggleHint] *)
Definition toggleHint (q : Question) (st : CardState) (rs : RandomSource)
    : CardState * RandomSource :=
  let (st', rs') :=
    if negb (showHint st) then generateHint q st rs else (st, rs) in
  (setShowHint (negb (showHint st)) st', rs').

(** *** Submission handlers

    Each handler returns the argument of the call to [onAnswer], or [None]
    when [onAnswer] is not called. *)

(** [handleMCSelect] *)
Definition handleMCSelect (isAnswered : bool) (option : jsstring)
    : Datatypes.option jsstring :=
  if negb isAnswered then Some option else None.

(** [handleInputSubmit] *)
Definition handleInputSubmit (isAnswered : bool) (st : CardState)
    : option jsstring :=
  if negb isAnswered && truthy (trim (inputVal st))
  then Some (trim (inputVal st))
  else None.

(** [handleRearrangeSubmit] *)
Definition handleRearrangeSubmit (isAnswered : bool) (st : CardState)
    : option jsstring :=
  if negb isAnswered && (0 <? List.length (selectedParts st))
  then Some (join [SPACE] (selectedParts st))
  else None.

(** *** Fragment selection *)

(** [handlePartClick] *)
Definition handlePartClick (isAnswered : bool) (part : jsstring)
    (st : CardState) : CardState :=
  if isAnswered then st
  else if includes (selectedParts st) part
  then setSelectedParts (fun prev => without part prev) st
  else setSelectedParts (fun prev => prev ++ [part]) st.

(** The [disabled] attribute of the pool button of a fragment: a disabled
    button is also the one drawn invisible and does not receive clicks. *)
Definition poolButtonDisabled (isAnswered : bool) (st : CardState)
    (part : jsstring) : bool :=
  isAnswered || includes (selectedParts st) part.

(** The fragments of the pool, [question.rearrangeParts?.map(...)]. *)
Definition poolOf (q : Question) : list jsstring :=
  match rearrangeParts q with
  | Some parts => parts
  | None => []
  end.

(** A tap on the pool button at position [idx]: the click reaches
    [handlePartClick] only when the button exists and is not disabled. *)
Definition tapPool (q : Question) (isAnswered : bool) (idx : nat)
    (st : CardState) : CardState :=
  match nth_error (poolOf q) idx with
  | Some part =>
      if poolButtonDisabled isAnswered st part then st
      else handlePartClick isAnswered part st
  | None => st
  end.

(** A tap on the button at position [idx] of the drop zone, which is
    disabled once the question is answered. *)
Definition tapSelected (isAnswered : bool) (idx : nat) (st : CardState)
    : CardState :=
  match nth_error (selectedParts st) idx with
  | Some part =>
      if isAnswered then st else handlePartClick isAnswered part st
  | None => st
  end.

(** The positions of the pool whose button is enabled. *)
Definition enabledPositions (q : Question) (isAnswered : bool)
    (st : CardState) : list nat :=
  filter (fun i => negb (poolButtonDisabled isAnswered st (nth i (poolOf q) [])))
         (seq 0 (List.length (poolOf q))).

(** A tap on the option button at position [idx] of a multiple-choice
    question. *)
Definition tapOption (q : Question) (isAnswered : bool) (idx : nat)
    : option jsstring :=
  match options q with
  | Some opts =>
      match nth_error opts idx with
      | Some opt => if isAnswered then None else handleMCSelect isAnswered opt
      | None => None
      end
  | None => None
  end.

(** *** Evaluation *)

(** [isCorrect], for the props [question] and [userAnswer]. *)
Definition isCorrect (q : Question) (userAnswer : option jsstring) : bool :=
  match userAnswer with
  | None => false
  | Some ua =>
      if negb (truthy ua) then false
      else if isRearrange (type q)
      then str_eqb (trim (collapseWhiteSpace ua))
                   (trim (collapseWhiteSpace (correctAnswer q)))
      else str_eqb (toLowerCase ua) (toLowerCase (correctAnswer q))
  end.

(** *** Reachable states *)

(** The states of a card: from the initial state through any sequence of
    edits of the input, hint toggles, fragment clicks and question changes.
    React re-renders between two events, so each handler sees the state the
    previous one left. *)
Inductive reachable : CardState -> Prop :=
  | reach_init : reachable initialState
  | reach_input : forall st v,
      reachable st -> reachable (setInputVal v st)
  | reach_toggle : forall st q rs,
      reachable st -> reachable (fst (toggleHint q st rs))
  | reach_part : forall st isAnswered part,
      reachable st -> reachable (handlePartClick isAnswered part st)
  | reach_reset : forall st,
      reachable st -> reachable (resetOnQuestionChange st).

(** *** Statements about the component that are put to the test below *)

(** Whitespace normalisation of the rearrange comparison. *)
Definition normalizeSentence (s : jsstring) : jsstring :=
  trim (collapseWhiteSpace s).

(** Two copies of one value, at the pool positions [i] and [j], are selected
    and removed independently: the tap on [i] selects one occurrence and
    leaves the button at [j] enabled, the tap on [j] then selects a second
    occurrence, and a tap on a selected copy takes one occurrence away. *)
Definition copiesIndependent (q : Question) (i j : nat) : Prop :=
  let v := nth i (poolOf q) [] in
  let st1 := tapPool q false i initialState in
  let st2 := tapPool q false j st1 in
  selectedParts st1 = [v]
  /\ poolButtonDisabled false st1 (nth j (poolOf q) []) = false
  /\ selectedParts st2 = [v; v]
  /\ selectedParts (tapSelected false 0 st2) = [v].

(** A multiple-choice answer is accepted exactly when it is the correct
    answer up to letter case and is one of the options. *)
Definition acceptsOnlyOptions (q : Question) (ua : jsstring) : Prop :=
  isCorrect q (Some ua) = true <->
  (toLowerCase ua = toLowerCase (correctAnswer q)
   /\ In ua (match options q with Some opts => opts | None => [] end)).

(** Every submitted answer is judged incorrect. *)
Definition alwaysIncorrect (q : Question) : Prop :=
  forall ua : jsstring, isCorrect q (Some ua) = false.

(** A rearrange answer is accepted exactly when the normalised strings are
    equal. *)
Definition acceptsNormalizedEqual (q : Question) (ua : jsstring) : Prop :=
  isCorrect q (Some ua) = true <->
  normalizeSentence ua = normalizeSentence (correctAnswer q).

(** No handler passes the empty string to [onAnswer]. *)
Definition neverSubmitsEmpty (q : Question) (st : CardState) : Prop :=
  (forall idx, tapOption q false idx <> Some [])
  /\ handleInputSubmit false st <> Some []
  /\ handleRearrangeSubmit false st <> Some [].

(** *** Runs of one question instance *)

(** What the learner can do to a displayed question without submitting:
    edit the text input, press the hint button, press a fragment button.
    The flag is the value of the prop [isAnswered] at that moment. *)
Inductive Event : Type :=
  | EditInput (v : jsstring)
  | PressHint
  | PressPart (isAnswered : bool) (part : jsstring).

Definition handleEvent (q : Question) (e : Event)
    (cur : CardState * RandomSource) : CardState * RandomSource :=
  match e with
  | EditInput v => (setInputVal v (fst cur), snd cur)
  | PressHint => toggleHint q (fst cur) (snd cur)
  | PressPart isAnswered part =>
      (handlePartClick isAnswered part (fst cur), snd cur)
  end.

(** The events of a list, handled from left to right. *)
Definition run (q : Question) (es : list Event)
    (cur : CardState * RandomSource) : CardState * RandomSource :=
  fold_left (fun c e => handleEvent q e c) es cur.

(** A state in which pressing the hint button can no longer change the
    text: the text is there, or the question has none. *)
Definition hintSettled (q : Question) (st : CardState) : Prop :=
  hintText st <> []
  \/ (hintText st = [] /\ forall rs, hintSwitch q rs = ([], rs)).

(** *** More of the rendering and of the ways to drive the card *)

(** A string that is one word: not empty, and without white space. *)
Definition isWord (w : jsstring) : bool :=
  truthy w && forallb (fun c => negb (isWhiteSpace c)) w.

(** [s.replace(pattern, '')] for a pattern that is a string of one code
    unit: only the first occurrence goes. *)
Fixpoint removeFirst (c : unit16) (s : jsstring) : jsstring :=
  match s with
  | [] => []
  | x :: r => if N.eqb x c then r else x :: removeFirst c r
  end.

(** The [src] that [renderMedia] hands to the audio player,
    [question.audioUrl.replace(' ', '')]; there is no player when
    [audioUrl] is missing or empty. *)
Definition audioPlayerSrc (q : Question) : option jsstring :=
  match audioUrl q with
  | Some url => if truthy url then Some (removeFirst SPACE url) else None
  | None => None
  end.

(** The hint box is drawn when [showHint && !isAnswered]. *)
Definition hintBoxShown (isAnswered : bool) (st : CardState) : bool :=
  showHint st && negb isAnswered.

(** The five looks of an option button, after the class strings of
    [renderQuestionContent]: the initial white one, blue, green, red and
    the faded one. *)
Inductive OptionStyle : Type :=
  | StyleNeutral
  | StyleChosen
  | StyleCorrect
  | StyleWrong
  | StyleDimmed.

(** [option === userAnswer] for a [userAnswer] that may be [null]. *)
Definition isUserAnswer (option : jsstring)
    (userAnswer : Datatypes.option jsstring) : bool :=
  match userAnswer with
  | Some ua => str_eqb option ua
  | None => false
  end.

(** The value of [btnClass] for one option. *)
Definition optionButtonStyle (q : Question) (isAnswered : bool)
    (userAnswer : Datatypes.option jsstring) (option : jsstring)
    : OptionStyle :=
  if isAnswered then
    if str_eqb option (correctAnswer q) then StyleCorrect
    else if isUserAnswer option userAnswer
            && negb (isUserAnswer (correctAnswer q) userAnswer)
    then StyleWrong
    else StyleDimmed
  else if isUserAnswer option userAnswer then StyleChosen
  else StyleNeutral.

(** Taps on the pool buttons at the positions of a list, one after the
    other, on a question that is not answered. *)
Definition tapPoolAll (q : Question) (idxs : list nat) (st : CardState)
    : CardState :=
  fold_left (fun s idx => tapPool q false idx s) idxs st.

(** The states of the card of one question that the rendered buttons can
    produce: the fragment handler is only ever called from a pool button or
    from a button of the drop zone. *)
Inductive assembled (q : Question) : CardState -> Prop :=
  | asm_init : assembled q initialState
  | asm_input : forall st v,
      assembled q st -> assembled q (setInputVal v st)
  | asm_hint : forall st rs,
      assembled q st -> assembled q (fst (toggleHint q st rs))
  | asm_pool : forall st isAnswered idx,
      assembled q st -> assembled q (tapPool q isAnswered idx st)
  | asm_selected : forall st isAnswered idx,
      assembled q st -> assembled q (tapSelected isAnswered idx st).

(** ** Properties of the string operations *)

Lemma str_eqb_eq (a b : jsstring) : str_eqb a b = true <-> a = b.
Proof.
  revert b; induction a as [|x a IH]; intros [|y b]; simpl;
    try (split; [discriminate | discriminate]); try tauto.
  rewrite andb_true_iff, N.eqb_eq, IH.
  split; [intros [-> ->]; reflexivity | intros H; inversion H; auto].
Qed.

Lemma str_eqb_refl (a : jsstring) : str_eqb a a = true.
Proof. apply str_eqb_eq; reflexivity. Qed.

Lemma str_eqb_neq (a b : jsstring) : str_eqb a b = false <-> a <> b.
Proof.
  rewrite <- str_eqb_eq, not_true_iff_false; reflexivity.
Qed.

Lemma str_eqb_sym (a b : jsstring) : str_eqb a b = str_eqb b a.
Proof.
  destruct (str_eqb a b) eqn:E.
  - apply str_eqb_eq in E; subst; symmetry; apply str_eqb_refl.
  - symmetry; apply str_eqb_neq; apply str_eqb_neq in E; congruence.
Qed.

Lemma truthy_true (s : jsstring) : truthy s = true <-> s <> [].
Proof. destruct s; simpl; split; congruence. Qed.

Lemma truthy_false (s : jsstring) : truthy s = false <-> s = [].
Proof. destruct s; simpl; split; congruence. Qed.

Lemma includes_In (l : list jsstring) (x : jsstring) :
  includes l x = true <-> In x l.
Proof.
  unfold includes; rewrite existsb_exists; split.
  - intros [y [Hy E]]; apply str_eqb_eq in E; subst; assumption.
  - intros H; exists x; split; [assumption | apply str_eqb_refl].
Qed.

Lemma includes_not_In (l : list jsstring) (x : jsstring) :
  includes l x = false <-> ~ In x l.
Proof.
  rewrite <- includes_In, not_true_iff_false; reflexivity.
Qed.

Lemma without_In (x y : jsstring) (l : list jsstring) :
  In y (without x l) <-> In y l /\ y <> x.
Proof.
  unfold without; rewrite filter_In, negb_true_iff, str_eqb_neq; reflexivity.
Qed.

Lemma without_NoDup (x : jsstring) (l : list jsstring) :
  NoDup l -> NoDup (without x l).
Proof. intros H; unfold without; apply NoDup_filter; assumption. Qed.

Lemma without_count_same (x : jsstring) (l : list jsstring) :
  count_occ jsstring_eq_dec (without x l) x = 0.
Proof.
  apply count_occ_not_In; rewrite without_In.
  intros [_ H]; apply H; reflexivity.
Qed.

Lemma without_count_other (x y : jsstring) (l : list jsstring) :
  y <> x ->
  count_occ jsstring_eq_dec (without x l) y = count_occ jsstring_eq_dec l y.
Proof.
  intros Hxy; induction l as [|p l IH]; simpl; [reflexivity|].
  destruct (str_eqb p x) eqn:E; simpl.
  - apply str_eqb_eq in E; subst p.
    destruct (jsstring_eq_dec x y); [congruence | assumption].
  - destruct (jsstring_eq_dec p y); rewrite IH; reflexivity.
Qed.

Lemma without_length (x : jsstring) (l : list jsstring) :
  List.length (without x l) + count_occ jsstring_eq_dec l x = List.length l.
Proof.
  induction l as [|p l IH]; simpl; [reflexivity|].
  destruct (str_eqb p x) eqn:E; simpl.
  - apply str_eqb_eq in E; subst p.
    destruct (jsstring_eq_dec x x); [lia | congruence].
  - apply str_eqb_neq in E.
    destruct (jsstring_eq_dec p x); [congruence | lia].
Qed.

Lemma NoDup_count_le_1 (l : list jsstring) (v : jsstring) :
  NoDup l -> count_occ jsstring_eq_dec l v <= 1.
Proof.
  intros H; rewrite (NoDup_count_occ jsstring_eq_dec) in H; apply H.
Qed.

Lemma count_occ_snoc (l : list jsstring) (x v : jsstring) :
  count_occ jsstring_eq_dec (l ++ [x]) v =
  count_occ jsstring_eq_dec l v + (if jsstring_eq_dec x v then 1 else 0).
Proof.
  rewrite count_occ_app; simpl; destruct (jsstring_eq_dec x v); reflexivity.
Qed.

(** [split] and [join] *)

Lemma split_not_nil (sep : unit16) (s : jsstring) : split sep s <> [].
Proof.
  destruct s as [|c r]; simpl; [discriminate|].
  destruct (N.eqb c sep); [discriminate|].
  destruct (split sep r); discriminate.
Qed.

Lemma join_cons (sep w : jsstring) (ws : list jsstring) :
  ws <> [] -> join sep (w :: ws) = w ++ sep ++ join sep ws.
Proof. destruct ws; [congruence | reflexivity]. Qed.

Lemma join_split (sep : unit16) (s : jsstring) :
  join [sep] (split sep s) = s.
Proof.
  induction s as [|c r IH]; simpl; [reflexivity|].
  destruct (N.eqb c sep) eqn:E.
  - apply N.eqb_eq in E; subst c.
    rewrite join_cons by apply split_not_nil.
    simpl; rewrite IH; reflexivity.
  - pose proof (split_not_nil sep r) as Hne.
    destruct (split sep r) as [|w ws]; [congruence|].
    destruct ws as [|w' ws'].
    + simpl in *; congruence.
    + rewrite join_cons by discriminate.
      rewrite join_cons in IH by discriminate.
      simpl; rewrite <- IH; reflexivity.
Qed.

Lemma join_app (sep : jsstring) (l1 l2 : list jsstring) :
  l1 <> [] -> l2 <> [] ->
  join sep (l1 ++ l2) = join sep l1 ++ sep ++ join sep l2.
Proof.
  induction l1 as [|w l1 IH]; intros H1 H2; [congruence|].
  destruct l1 as [|w' l1'].
  - simpl app. rewrite join_cons by assumption. reflexivity.
  - change ((w :: w' :: l1') ++ l2) with (w :: ((w' :: l1') ++ l2)).
    rewrite join_cons by (simpl; discriminate).
    rewrite IH by (assumption || discriminate).
    rewrite (join_cons sep w (w' :: l1')) by discriminate.
    rewrite <- !app_assoc; reflexivity.
Qed.

Lemma join_not_empty (sep : jsstring) (l : list jsstring) :
  sep <> [] ->
  (exists p, In p l /\ p <> []) \/ 2 <= List.length l ->
  join sep l <> [].
Proof.
  intros Hsep [[p [Hin Hp]] | Hlen].
  - induction l as [|w ws IH]; [contradiction|].
    destruct ws as [|w' ws'].
    + simpl in *; destruct Hin as [->|[]]; assumption.
    + rewrite join_cons by discriminate.
      intros E; apply app_eq_nil in E; destruct E as [_ E].
      apply app_eq_nil in E; destruct E as [E _]; contradiction.
  - destruct l as [|w [|w' ws]]; simpl in Hlen; try lia.
    rewrite join_cons by discriminate.
    intros E; apply app_eq_nil in E; destruct E as [_ E].
    apply app_eq_nil in E; destruct E as [E _]; contradiction.
Qed.

(** Decimal digits *)

Lemma digits_all_digits (d : Decimal.uint) : Forall (fun c => isDigit c = true) (digits d).
Proof. induction d; simpl; constructor; auto. Qed.

Lemma digits_inj (d1 d2 : Decimal.uint) : digits d1 = digits d2 -> d1 = d2.
Proof.
  revert d2; induction d1; intros d2; destruct d2; simpl; intros H;
    try discriminate; try reflexivity;
    inversion H; f_equal; auto.
Qed.

Lemma numberToString_inj (n m : nat) :
  numberToString n = numberToString m -> n = m.
Proof.
  unfold numberToString; intros H; apply digits_inj in H.
  rewrite <- (DecimalNat.Unsigned.of_to n), <- (DecimalNat.Unsigned.of_to m).
  rewrite H; reflexivity.
Qed.

(** A run of digits followed by a code unit that is not a digit can be read
    back in one way only. *)
Lemma digit_run_unique (d1 d2 x y : jsstring) (c1 c2 : unit16) :
  Forall (fun c => isDigit c = true) d1 ->
  Forall (fun c => isDigit c = true) d2 ->
  isDigit c1 = false -> isDigit c2 = false ->
  d1 ++ c1 :: x = d2 ++ c2 :: y -> d1 = d2 /\ c1 :: x = c2 :: y.
Proof.
  intros H1; revert d2; induction H1 as [|a d1 Ha _ IH];
    intros d2 H2 Hc1 Hc2 E.
  - destruct H2 as [|b d2 Hb _]; simpl in E; [split; auto|].
    inversion E; subst; congruence.
  - destruct H2 as [|b d2 Hb H2]; simpl in E.
    + inversion E; subst; congruence.
    + injection E as -> E.
      destruct (IH d2 H2 Hc1 Hc2 E) as [-> E']; split; [reflexivity | exact E'].
Qed.

(** ** White space normalisation

    [trim] after [replace(/\s+/g, ' ')] keeps the words of a string and
    puts one space between two of them. *)

Lemma trimStart_app (a b : jsstring) :
  trimStart (a ++ b)
  = if forallb isWhiteSpace a then trimStart b else trimStart a ++ b.
Proof.
  induction a as [|c a IH]; simpl; [reflexivity|].
  destruct (isWhiteSpace c); simpl; [exact IH | reflexivity].
Qed.

Lemma trimStart_all_white (s : jsstring) :
  forallb isWhiteSpace s = true -> trimStart s = [].
Proof.
  induction s as [|c s IH]; simpl; [reflexivity|].
  destruct (isWhiteSpace c); simpl; [exact IH | discriminate].
Qed.

Lemma forallb_rev (f : unit16 -> bool) (s : jsstring) :
  forallb f (rev s) = forallb f s.
Proof.
  induction s as [|c s IH]; simpl; [reflexivity|].
  rewrite forallb_app, IH; simpl; rewrite andb_true_r; apply andb_comm.
Qed.

Lemma trimEnd_cons (c : unit16) (r : jsstring) :
  trimEnd (c :: r)
  = if forallb isWhiteSpace (c :: r) then [] else c :: trimEnd r.
Proof.
  unfold trimEnd; simpl rev; rewrite trimStart_app, forallb_rev.
  simpl forallb.
  destruct (forallb isWhiteSpace r) eqn:Hr.
  - rewrite andb_true_r; simpl trimStart.
    destruct (isWhiteSpace c); [reflexivity|].
    rewrite trimStart_all_white by (rewrite forallb_rev; exact Hr).
    reflexivity.
  - rewrite andb_false_r, rev_app_distr; reflexivity.
Qed.

Lemma collapseFrom_all_white (b : bool) (s : jsstring) :
  forallb isWhiteSpace s = true ->
  collapseFrom true s = [] /\ words s = []
  /\ forallb isWhiteSpace (collapseFrom b s) = true.
Proof.
  revert b; induction s as [|c s IH]; intros b; simpl; [auto|].
  destruct (isWhiteSpace c) eqn:Hc; simpl; [|discriminate].
  intros Hs; destruct (IH true Hs) as [H1 [H2 H3]].
  repeat split; try assumption.
  destruct b; simpl; [assumption | rewrite H3; reflexivity].
Qed.

Lemma collapseFrom_some_word (b : bool) (s : jsstring) :
  forallb isWhiteSpace s = false ->
  forallb isWhiteSpace (collapseFrom b s) = false /\ words s <> [].
Proof.
  revert b; induction s as [|c s IH]; intros b; simpl; [discriminate|].
  destruct (isWhiteSpace c) eqn:Hc; simpl.
  - intros Hs; destruct (IH true Hs) as [H1 H2]; split; [|assumption].
    destruct b; simpl; assumption.
  - intros _; rewrite Hc; split; [reflexivity|].
    destruct s as [|c' s']; [discriminate|].
    destruct (isWhiteSpace c'); [discriminate|].
    destruct (words (c' :: s')); discriminate.
Qed.

Lemma trimStart_collapse (s : jsstring) :
  trimStart (collapseFrom false s) = collapseFrom true s
  /\ trimStart (collapseFrom true s) = collapseFrom true s.
Proof.
  induction s as [|c s [IH1 IH2]]; simpl; [auto|].
  destruct (isWhiteSpace c) eqn:Hc; simpl.
  - split; assumption.
  - rewrite Hc; split; reflexivity.
Qed.

Lemma trimEnd_collapse_words (s : jsstring) :
  trimEnd (collapseFrom true s) = join [SPACE] (words s).
Proof.
  induction s as [|c r IH]; [reflexivity|].
  simpl collapseFrom; simpl words.
  destruct (isWhiteSpace c) eqn:Hc; [exact IH|].
  rewrite trimEnd_cons; simpl forallb; rewrite Hc; simpl.
  destruct r as [|c' r']; [reflexivity|].
  simpl collapseFrom in *.
  destruct (isWhiteSpace c') eqn:Hc'.
  - (* the word ends here *)
    simpl words in IH; rewrite Hc' in IH.
    rewrite trimEnd_cons.
    destruct (forallb isWhiteSpace r') eqn:Hr'.
    + destruct (collapseFrom_all_white true r' Hr') as [H1 [H2 _]].
      simpl words; rewrite Hc', H1, H2; reflexivity.
    + destruct (collapseFrom_some_word true r' Hr') as [H1 H2].
      assert (Hws : forallb isWhiteSpace (SPACE :: collapseFrom true r') = false)
        by (simpl; exact H1).
      rewrite Hws; simpl words; rewrite Hc'.
      rewrite join_cons by assumption.
      rewrite IH; reflexivity.
  - (* the word goes on *)
    assert (Hw : words (c' :: r') <> []).
    { apply (collapseFrom_some_word true); simpl; rewrite Hc'; reflexivity. }
    rewrite IH.
    destruct (words (c' :: r')) as [|w ws]; [congruence|].
    destruct ws; simpl; reflexivity.
Qed.

(** The normalised string is the words of the string joined by single
    spaces. *)
Lemma normalizeSentence_words (s : jsstring) :
  normalizeSentence s = join [SPACE] (words s).
Proof.
  unfold normalizeSentence, trim, collapseWhiteSpace.
  rewrite (proj1 (trimStart_collapse s)); apply trimEnd_collapse_words.
Qed.

(** A word is not empty and has no white space in it. *)
Lemma words_shape (s : jsstring) :
  Forall (fun w => w <> [] /\ forallb (fun c => negb (isWhiteSpace c)) w = true)
         (words s).
Proof.
  induction s as [|c r IH]; simpl; [constructor|].
  destruct (isWhiteSpace c) eqn:Hc; [exact IH|].
  destruct r as [|c' r'].
  - constructor; [|constructor].
    split; [discriminate | simpl; rewrite Hc; reflexivity].
  - destruct (isWhiteSpace c') eqn:Hc'.
    + constructor; [|exact IH].
      split; [discriminate | simpl; rewrite Hc; reflexivity].
    + destruct (words (c' :: r')) as [|w ws].
      * constructor; [|constructor].
        split; [discriminate | simpl; rewrite Hc; reflexivity].
      * inversion IH as [|? ? [Hw1 Hw2] Hws]; subst.
        constructor; [|assumption].
        split; [discriminate | simpl; rewrite Hc, Hw2; reflexivity].
Qed.

Lemma split_without_sep (sep : unit16) (w : jsstring) :
  ~ In sep w -> split sep w = [w].
Proof.
  induction w as [|c w IH]; simpl; intros H; [reflexivity|].
  destruct (N.eqb c sep) eqn:E.
  - apply N.eqb_eq in E; subst; elim H; left; reflexivity.
  - rewrite IH by (intros Hin; apply H; right; assumption); reflexivity.
Qed.

Lemma split_app_sep (sep : unit16) (w x : jsstring) :
  ~ In sep w -> split sep (w ++ sep :: x) = w :: split sep x.
Proof.
  induction w as [|c w IH]; simpl; intros H.
  - rewrite N.eqb_refl; reflexivity.
  - destruct (N.eqb c sep) eqn:E.
    + apply N.eqb_eq in E; subst; elim H; left; reflexivity.
    + rewrite IH by (intros Hin; apply H; right; assumption); reflexivity.
Qed.

Lemma split_join (sep : unit16) (l : list jsstring) :
  l <> [] -> Forall (fun w => ~ In sep w) l ->
  split sep (join [sep] l) = l.
Proof.
  induction l as [|w l IH]; intros Hne Hall; [congruence|].
  inversion Hall as [|? ? Hw Hl]; subst.
  destruct l as [|w' l'].
  - simpl; apply split_without_sep; assumption.
  - rewrite join_cons by discriminate.
    change ([sep] ++ join [sep] (w' :: l'))
      with (sep :: join [sep] (w' :: l')).
    rewrite split_app_sep by assumption.
    rewrite IH by (assumption || discriminate); reflexivity.
Qed.

Lemma word_has_no_space (w : jsstring) :
  forallb (fun c => negb (isWhiteSpace c)) w = true -> ~ In SPACE w.
Proof.
  intros H Hin; rewrite forallb_forall in H.
  specialize (H SPACE Hin); discriminate.
Qed.

(** Two strings have the same normal form exactly when they have the same
    words in the same order. *)
Lemma normalizeSentence_eq_words (a b : jsstring) :
  normalizeSentence a = normalizeSentence b <-> words a = words b.
Proof.
  rewrite !normalizeSentence_words; split; [|intros ->; reflexivity].
  assert (Hsp : forall s, Forall (fun w => ~ In SPACE w) (words s)).
  { intros s; eapply Forall_impl; [|apply words_shape].
    intros w [_ Hw]; apply word_has_no_space; assumption. }
  assert (Hnil : forall s, join [SPACE] (words s) = [] -> words s = []).
  { intros s E; pose proof (words_shape s) as Hs.
    destruct (words s) as [|w ws]; [reflexivity|].
    exfalso; revert E; apply join_not_empty; [discriminate|].
    left; exists w; split; [left; reflexivity|].
    inversion Hs as [|? ? [Hw _] _]; assumption. }
  intros E.
  destruct (words a) as [|wa la] eqn:Ha.
  - symmetry; apply Hnil; rewrite <- E; reflexivity.
  - destruct (words b) as [|wb lb] eqn:Hb.
    + specialize (Hnil a); rewrite Ha in Hnil; apply Hnil; exact E.
    + rewrite <- (split_join SPACE (wa :: la)), <- (split_join SPACE (wb :: lb));
        try discriminate.
      * rewrite E; reflexivity.
      * rewrite <- Hb; apply Hsp.
      * rewrite <- Ha; apply Hsp.
Qed.

(** ** Evaluation *)

(** Outside the rearrange branch the comparison is the one of the last line
    of [isCorrect]: a truthy answer whose lower-casing is that of the
    correct answer. *)
Lemma isCorrect_caseless (q : Question) (userAnswer : option jsstring) :
  isRearrange (type q) = false ->
  (isCorrect q userAnswer = true <->
   exists ua, userAnswer = Some ua /\ ua <> []
              /\ toLowerCase ua = toLowerCase (correctAnswer q)).
Proof.
  intros Hty; unfold isCorrect; rewrite Hty.
  destruct userAnswer as [ua|].
  - destruct ua as [|c ua]; simpl.
    + split; [discriminate | intros [s [E [Hne _]]]; inversion E; congruence].
    + rewrite str_eqb_eq; split.
      * intros H; exists (c :: ua); repeat split; [discriminate | assumption].
      * intros [s [E [_ H]]]; inversion E; subst; assumption.
  - split; [discriminate | intros [s [E _]]; discriminate].
Qed.

(** The options of a question play no part in its evaluation. *)
Lemma isCorrect_ignores_options (q : Question) (opts : option (list jsstring))
    (userAnswer : option jsstring) :
  isCorrect
    {| id := id q; type := type q; questionText := questionText q;
       explanation := explanation q; correctAnswer := correctAnswer q;
       options := opts; rearrangeParts := rearrangeParts q;
       imageUrl := imageUrl q; audioUrl := audioUrl q |} userAnswer
  = isCorrect q userAnswer.
Proof. reflexivity. Qed.

(** C2, as the component has it: a multiple-choice answer is correct exactly
    when it is present, not empty, and equal to the correct answer after
    lower-casing both; whether it is one of the options is not looked at,
    and the evaluation is a total function (nothing is raised). *)
Theorem isCorrect_multiple_choice (q : Question)
    (userAnswer : option jsstring) :
  type q = MULTIPLE_CHOICE ->
  (isCorrect q userAnswer = true <->
   exists ua, userAnswer = Some ua /\ ua <> []
              /\ toLowerCase ua = toLowerCase (correctAnswer q))
  /\ (forall opts,
        isCorrect
          {| id := id q; type := type q; questionText := questionText q;
             explanation := explanation q; correctAnswer := correctAnswer q;
             options := opts; rearrangeParts := rearrangeParts q;
             imageUrl := imageUrl q; audioUrl := audioUrl q |} userAnswer
        = isCorrect q userAnswer).
Proof.
  intros Hty; split.
  - apply isCorrect_caseless; rewrite Hty; reflexivity.
  - intros opts; apply isCorrect_ignores_options.
Qed.

(** C3, as the component has it: for a question whose type is none of the
    three variants the evaluation does not fail and falls through to the
    comparison of the lower-cased strings, so an answer is correct exactly
    when it is present, not empty, and equal to the correct answer after
    lower-casing both. *)
Theorem isCorrect_other_type (q : Question) (tag : jsstring)
    (userAnswer : option jsstring) :
  type q = OTHER tag ->
  (isCorrect q userAnswer = true <->
   exists ua, userAnswer = Some ua /\ ua <> []
              /\ toLowerCase ua = toLowerCase (correctAnswer q)).
Proof.
  intros Hty; apply isCorrect_caseless; rewrite Hty; reflexivity.
Qed.

(** The rearrange branch compares the normal forms, and so the words. *)
Lemma rearrange_compares_normal_forms (q : Question) (ua : jsstring) :
  type q = REARRANGE -> ua <> [] ->
  (isCorrect q (Some ua) = true <->
   normalizeSentence ua = normalizeSentence (correctAnswer q)).
Proof.
  intros Hty Hne; unfold isCorrect, normalizeSentence; rewrite Hty; simpl.
  destruct ua as [|c ua]; [congruence|]; simpl negb; cbv iota.
  apply str_eqb_eq.
Qed.

(** C7: an absent submitted answer and the empty submitted answer are both
    judged incorrect, whatever the question: the guard on the falsy
    [userAnswer] comes first.  [isCorrect] is total, so nothing is thrown. *)
Theorem isCorrect_absent_or_empty (q : Question) :
  isCorrect q None = false
  /\ isCorrect q (Some []) = false
  /\ (forall userAnswer,
        truthy_opt userAnswer = false -> isCorrect q userAnswer = false).
Proof.
  split; [reflexivity|]; split; [reflexivity|].
  intros [[|c ua]|]; simpl; [reflexivity | discriminate | reflexivity].
Qed.

(** ** Hint generation *)

Lemma generateHint_fresh (q : Question) (st : CardState) (rs : RandomSource) :
  hintText st = [] ->
  generateHint q st rs
  = (setHintText (fst (hintSwitch q rs)) st, snd (hintSwitch q rs)).
Proof.
  intros H; unfold generateHint; rewrite H; simpl.
  destruct (hintSwitch q rs); reflexivity.
Qed.

Lemma generateHint_cached (q : Question) (st : CardState) (rs : RandomSource) :
  hintText st <> [] -> generateHint q st rs = (st, rs).
Proof.
  intros H; unfold generateHint.
  apply truthy_true in H; rewrite H; reflexivity.
Qed.

(** The switch leaves an empty text only on the two paths that do not draw
    and do not depend on the random source. *)
Lemma hintSwitch_empty (q : Question) (rs : RandomSource) :
  fst (hintSwitch q rs) = [] -> forall rs', hintSwitch q rs' = ([], rs').
Proof.
  unfold hintSwitch; destruct (type q); simpl.
  - destruct (0 <? List.length (wrongOptionsOf q)); simpl.
    + discriminate.
    + reflexivity.
  - discriminate.
  - discriminate.
  - reflexivity.
Qed.

Lemma hintSwitch_consumed (q : Question) (rs : RandomSource) :
  consumed (snd (hintSwitch q rs)) <= S (consumed rs).
Proof.
  unfold hintSwitch; destruct (type q); simpl; try lia.
  destruct (0 <? List.length (wrongOptionsOf q)); simpl; lia.
Qed.

Lemma generateHint_settles (q : Question) (st : CardState)
    (rs : RandomSource) :
  hintSettled q (fst (generateHint q st rs)).
Proof.
  unfold generateHint.
  destruct (truthy (hintText st)) eqn:T.
  - left; simpl; apply truthy_true; assumption.
  - destruct (hintSwitch q rs) as [text rs'] eqn:E; simpl.
    destruct text as [|c text].
    + right; split; [reflexivity|].
      apply (hintSwitch_empty q rs); rewrite E; reflexivity.
    + left; discriminate.
Qed.

Lemma generateHint_settled (q : Question) (st : CardState)
    (rs : RandomSource) :
  hintSettled q st -> generateHint q st rs = (st, rs).
Proof.
  intros [H | [H Hsw]].
  - apply generateHint_cached; assumption.
  - rewrite generateHint_fresh by assumption.
    rewrite Hsw; simpl; destruct st; simpl in *; subst; reflexivity.
Qed.

Lemma handleEvent_settled (q : Question) (e : Event)
    (cur : CardState * RandomSource) :
  hintSettled q (fst cur) ->
  hintSettled q (fst (handleEvent q e cur))
  /\ hintText (fst (handleEvent q e cur)) = hintText (fst cur)
  /\ snd (handleEvent q e cur) = snd cur.
Proof.
  intros H; destruct cur as [st rs]; destruct e as [v| |ans part]; simpl in *.
  - auto.
  - unfold toggleHint.
    destruct (showHint st); simpl.
    + auto.
    + rewrite generateHint_settled by assumption; simpl; auto.
  - unfold handlePartClick.
    destruct ans; [auto|].
    destruct (includes (selectedParts st) part); simpl; auto.
Qed.

Lemma run_settled (q : Question) (es : list Event)
    (cur : CardState * RandomSource) :
  hintSettled q (fst cur) ->
  hintText (fst (run q es cur)) = hintText (fst cur)
  /\ snd (run q es cur) = snd cur.
Proof.
  revert cur; induction es as [|e es IH]; intros cur H; simpl; [auto|].
  destruct (handleEvent_settled q e cur H) as [H1 [H2 H3]].
  destruct (IH _ H1) as [H4 H5].
  unfold run in *; simpl; rewrite H4, H5; auto.
Qed.

(** C8: invoking hint generation a second time on the same question
    instance gives back the state and the random source of the first
    invocation (same text, no new draw); whatever the learner does next on
    this question, the text stays the one of the first invocation and no
    further draw is made; one invocation draws at most once; and once a
    text is there a further invocation returns at the guard, whatever the
    question and the random source are, so the text is not computed again. *)
Theorem generateHint_idempotent (q : Question) (st : CardState)
    (rs : RandomSource) :
  let first := generateHint q st rs in
  let second := generateHint q (fst first) (snd first) in
  hintText (fst second) = hintText (fst first)
  /\ snd second = snd first
  /\ second = first
  /\ (forall es,
        hintText (fst (run q es first)) = hintText (fst first)
        /\ snd (run q es first) = snd first)
  /\ consumed (snd first) <= S (consumed rs)
  /\ (hintText (fst first) <> [] ->
      forall q' rs', generateHint q' (fst first) rs' = (fst first, rs')).
Proof.
  intros first second.
  assert (Hs : hintSettled q (fst first)) by apply generateHint_settles.
  assert (E : second = first).
  { unfold second; rewrite generateHint_settled by assumption.
    destruct first; reflexivity. }
  rewrite E; split; [reflexivity|]; split; [reflexivity|];
    split; [reflexivity|]; split; [|split].
  - intros es; apply run_settled; assumption.
  - unfold first, generateHint.
    destruct (truthy (hintText st)); simpl; [lia|].
    pose proof (hintSwitch_consumed q rs).
    destruct (hintSwitch q rs); simpl in *; assumption.
  - intros Hne q' rs'; apply generateHint_cached; assumption.
Qed.

(** The number of revealed words, for each number of words. *)
Lemma revealCountOf_cases (n : nat) :
  revealCountOf n = (if n <? 4 then 1 else 2).
Proof.
  unfold revealCountOf.
  destruct (n <? 4) eqn:E.
  - apply Nat.ltb_lt in E.
    assert (H : n / 2 <= 1).
    { destruct n as [|[|[|[|n]]]]; try lia; cbn; lia. }
    lia.
  - apply Nat.ltb_ge in E.
    assert (H : 2 <= n / 2).
    { replace n with (2 * 2 + (n - 4)) by lia.
      pose proof (Nat.Div0.div_le_mono 4 (2 * 2 + (n - 4)) 2 ltac:(lia)) as D.
      change (4 / 2) with 2 in D; exact D. }
    lia.
Qed.

Lemma revealCountOf_le (n : nat) : 1 <= n -> revealCountOf n <= n.
Proof.
  intros H; rewrite revealCountOf_cases.
  destruct (n <? 4) eqn:E; [lia | apply Nat.ltb_ge in E; lia].
Qed.

(** C5: for a rearrange question the generated hint is the template around
    the first [max(1, min(2, floor(n / 2)))] of the [n] tokens that
    splitting the correct answer on single spaces gives, joined by spaces;
    when there are three tokens or more, at most two tokens are revealed,
    at least one token is held back, and the revealed phrase is a proper
    prefix of the correct answer, so it is not the full answer. *)
Theorem rearrange_hint_prefix (q : Question) (st : CardState)
    (rs : RandomSource) :
  type q = REARRANGE -> hintText st = [] ->
  let words := split SPACE (correctAnswer q) in
  let revealCount := Nat.max 1 (Nat.min 2 (List.length words / 2)) in
  let revealed := firstn revealCount words in
  hintText (fst (generateHint q st rs))
    = REARRANGE_HINT_PREFIX ++ join [SPACE] revealed ++ REARRANGE_HINT_SUFFIX
  /\ List.length revealed = revealCount
  /\ (3 <= List.length words ->
      List.length revealed <= 2
      /\ List.length revealed < List.length words
      /\ join [SPACE] revealed <> correctAnswer q
      /\ exists rest,
           rest <> [] /\ words = revealed ++ rest
           /\ correctAnswer q
              = join [SPACE] revealed ++ [SPACE] ++ join [SPACE] rest).
Proof.
  intros Hty Hfresh words revealCount revealed.
  assert (Hpos : 1 <= List.length words).
  { pose proof (split_not_nil SPACE (correctAnswer q)) as Hne.
    fold words in Hne; destruct words; [congruence | simpl; lia]. }
  assert (Hlen : List.length revealed = revealCount).
  { unfold revealed; apply firstn_length_le.
    apply (revealCountOf_le _ Hpos). }
  split; [|split; [exact Hlen|]].
  - rewrite generateHint_fresh by assumption.
    unfold hintSwitch; rewrite Hty; reflexivity.
  - intros H3.
    assert (Hk : revealCount <= 2 /\ revealCount < List.length words).
    { change revealCount with (revealCountOf (List.length words)).
      rewrite revealCountOf_cases.
      destruct (List.length words <? 4) eqn:E;
        [lia | apply Nat.ltb_ge in E; lia]. }
    assert (Hsplit : exists rest,
               rest <> [] /\ words = revealed ++ rest
               /\ correctAnswer q
                  = join [SPACE] revealed ++ [SPACE] ++ join [SPACE] rest).
    { exists (skipn revealCount words).
      assert (Hw : words = revealed ++ skipn revealCount words)
        by (symmetry; apply firstn_skipn).
      assert (Hrest : skipn revealCount words <> []).
      { intros E; apply (f_equal (@List.length _)) in E.
        rewrite length_skipn in E; simpl in E; lia. }
      assert (Hrev : revealed <> []).
      { intros E; rewrite E in Hlen; simpl in Hlen.
        change revealCount with (revealCountOf (List.length words)) in Hlen.
        unfold revealCountOf in Hlen; lia. }
      repeat split; try assumption.
      rewrite <- (join_split SPACE (correctAnswer q)); fold words.
      rewrite Hw at 1; apply join_app; assumption. }
    rewrite Hlen; repeat split; try lia; try exact Hsplit.
    destruct Hsplit as [rest [_ [_ E]]].
    intros Heq; rewrite <- Heq in E at 1.
    apply (f_equal (@List.length _)) in E.
    rewrite !length_app in E; simpl in E; lia.
Qed.

(** C6: for a fill-in-the-blank question the generated hint is one template
    with two holes, filled with the decimal length of the trimmed correct
    answer and with the upper-cased first character of the trimmed correct
    answer; two such questions get the same hint exactly when they agree on
    these two items, so the hint tells them and nothing else of the
    answer. *)
Theorem fill_in_blank_hint (q q' : Question) (st : CardState)
    (rs rs' : RandomSource) :
  type q = FILL_IN_BLANK -> type q' = FILL_IN_BLANK -> hintText st = [] ->
  let answer := trim (correctAnswer q) in
  let answer' := trim (correctAnswer q') in
  hintText (fst (generateHint q st rs))
    = FIB_HINT_PREFIX ++ numberToString (strlen answer) ++ FIB_HINT_MIDDLE
        ++ toUpperCase (charAt0 answer) ++ FIB_HINT_SUFFIX
  /\ (hintText (fst (generateHint q st rs))
        = hintText (fst (generateHint q' st rs'))
      <-> strlen answer = strlen answer'
          /\ toUpperCase (charAt0 answer) = toUpperCase (charAt0 answer')).
Proof.
  intros Hty Hty' Hfresh answer answer'.
  assert (H : forall p r, type p = FILL_IN_BLANK ->
            hintText (fst (generateHint p st r))
            = FIB_HINT_PREFIX ++ numberToString (strlen (trim (correctAnswer p)))
                ++ FIB_HINT_MIDDLE
                ++ toUpperCase (charAt0 (trim (correctAnswer p)))
                ++ FIB_HINT_SUFFIX).
  { intros p r Hp; rewrite generateHint_fresh by assumption.
    unfold hintSwitch; rewrite Hp; reflexivity. }
  split; [apply H; assumption|].
  rewrite (H q rs Hty), (H q' rs' Hty'); fold answer answer'.
  split.
  - intros E; apply app_inv_head in E.
    unfold FIB_HINT_MIDDLE in E; simpl app in E.
    apply digit_run_unique in E;
      try apply digits_all_digits; try reflexivity.
    destruct E as [En Eu]; split.
    + apply numberToString_inj; assumption.
    + injection Eu as Eu.
      apply app_inv_tail in Eu; exact Eu.
  - intros [En Eu]; rewrite En, Eu; reflexivity.
Qed.

(** ** Fragment selection *)

Lemma handlePartClick_selected (part : jsstring) (st : CardState) :
  includes (selectedParts st) part = true ->
  selectedParts (handlePartClick false part st)
  = without part (selectedParts st).
Proof. intros H; unfold handlePartClick; rewrite H; reflexivity. Qed.

Lemma handlePartClick_unselected (part : jsstring) (st : CardState) :
  includes (selectedParts st) part = false ->
  selectedParts (handlePartClick false part st) = selectedParts st ++ [part].
Proof. intros H; unfold handlePartClick; rewrite H; reflexivity. Qed.

Lemma handlePartClick_NoDup (isAnswered : bool) (part : jsstring)
    (st : CardState) :
  NoDup (selectedParts st) ->
  NoDup (selectedParts (handlePartClick isAnswered part st)).
Proof.
  intros H; unfold handlePartClick.
  destruct isAnswered; [assumption|].
  destruct (includes (selectedParts st) part) eqn:E; simpl.
  - apply without_NoDup; assumption.
  - apply includes_not_In in E.
    apply NoDup_rev in H. rewrite <- (rev_involutive (_ ++ _)).
    apply NoDup_rev; rewrite rev_app_distr; simpl.
    constructor; [rewrite <- in_rev; assumption | assumption].
Qed.

Lemma toggleHint_selectedParts (q : Question) (st : CardState)
    (rs : RandomSource) :
  selectedParts (fst (toggleHint q st rs)) = selectedParts st.
Proof.
  unfold toggleHint, generateHint.
  destruct (showHint st); simpl; [reflexivity|].
  destruct (truthy (hintText st)); simpl; [reflexivity|].
  destruct (hintSwitch q rs); reflexivity.
Qed.

Lemma reachable_NoDup (st : CardState) :
  reachable st -> NoDup (selectedParts st).
Proof.
  induction 1 as [|st v _ IH|st q rs _ IH|st ans part _ IH|st _ IH].
  - constructor.
  - exact IH.
  - rewrite toggleHint_selectedParts; exact IH.
  - apply handlePartClick_NoDup; exact IH.
  - constructor.
Qed.

(** C9: in every reachable state the selected fragments have pairwise
    distinct values, so no value occurs twice; a tap on a pool fragment
    whose value is already selected changes nothing; and the sentence that
    is submitted is the join of such a duplicate-free selection. *)
Theorem selection_values_distinct (st : CardState) :
  reachable st ->
  NoDup (selectedParts st)
  /\ (forall v, count_occ jsstring_eq_dec (selectedParts st) v <= 1)
  /\ (forall q isAnswered idx part,
        nth_error (poolOf q) idx = Some part ->
        In part (selectedParts st) ->
        tapPool q isAnswered idx st = st)
  /\ (forall isAnswered a,
        handleRearrangeSubmit isAnswered st = Some a ->
        a = join [SPACE] (selectedParts st)
        /\ forall v, count_occ jsstring_eq_dec (selectedParts st) v <= 1).
Proof.
  intros Hr; pose proof (reachable_NoDup st Hr) as Hnd.
  assert (Hc : forall v, count_occ jsstring_eq_dec (selectedParts st) v <= 1)
    by (intros v; apply NoDup_count_le_1; assumption).
  split; [assumption|]; split; [assumption|]; split.
  - intros q ans idx part Hidx Hin.
    unfold tapPool, poolButtonDisabled; rewrite Hidx.
    apply includes_In in Hin; rewrite Hin, orb_true_r; reflexivity.
  - intros ans a; unfold handleRearrangeSubmit.
    destruct (negb ans && (0 <? List.length (selectedParts st)));
      [|discriminate].
    intros E; injection E as <-; split; [reflexivity | assumption].
Qed.

(** What the fragment handler does with values: a tap on an enabled pool
    fragment appends one occurrence of its value, after which every pool
    button with that value is disabled and a tap on any of them changes
    nothing, while buttons with other values are as before.  A tap on a
    selected fragment removes its value from the selection, which is one
    occurrence in a reachable state, leaves the other values alone and
    enables the pool buttons with that value again. *)
Theorem selection_keyed_by_value (q : Question) (st : CardState)
    (idx : nat) (part : jsstring) :
  reachable st ->
  nth_error (poolOf q) idx = Some part ->
  (includes (selectedParts st) part = false ->
   let st' := tapPool q false idx st in
   selectedParts st' = selectedParts st ++ [part]
   /\ count_occ jsstring_eq_dec (selectedParts st') part = 1
   /\ poolButtonDisabled false st' part = true
   /\ (forall j, nth_error (poolOf q) j = Some part ->
         tapPool q false j st' = st')
   /\ (forall other, other <> part ->
         poolButtonDisabled false st' other
         = poolButtonDisabled false st other))
  /\ (forall k, nth_error (selectedParts st) k = Some part ->
      let st' := tapSelected false k st in
      selectedParts st' = without part (selectedParts st)
      /\ count_occ jsstring_eq_dec (selectedParts st') part = 0
      /\ List.length (selectedParts st') + 1 = List.length (selectedParts st)
      /\ poolButtonDisabled false st' part = false
      /\ (forall other, other <> part ->
            count_occ jsstring_eq_dec (selectedParts st') other
            = count_occ jsstring_eq_dec (selectedParts st) other)).
Proof.
  intros Hr Hidx; pose proof (reachable_NoDup st Hr) as Hnd; split.
  - intros Hout st'.
    assert (Hsel : selectedParts st' = selectedParts st ++ [part]).
    { unfold st', tapPool, poolButtonDisabled; rewrite Hidx, Hout; simpl.
      apply handlePartClick_unselected; assumption. }
    assert (Hin : includes (selectedParts st') part = true).
    { apply includes_In; rewrite Hsel; apply in_or_app; right; left;
        reflexivity. }
    split; [assumption|]; split; [|split; [|split]].
    + rewrite Hsel, count_occ_snoc.
      apply includes_not_In in Hout.
      rewrite (proj1 (count_occ_not_In jsstring_eq_dec _ _) Hout).
      destruct (jsstring_eq_dec part part); [reflexivity | congruence].
    + unfold poolButtonDisabled; rewrite Hin; reflexivity.
    + intros j Hj; unfold tapPool, poolButtonDisabled at 1.
      rewrite Hj, Hin; reflexivity.
    + intros other Hother; unfold poolButtonDisabled; simpl.
      rewrite Hsel; unfold includes; rewrite existsb_app; simpl.
      replace (str_eqb other part) with false
        by (symmetry; apply str_eqb_neq; assumption).
      rewrite !orb_false_r; reflexivity.
  - intros k Hk st'.
    assert (Hin : In part (selectedParts st))
      by (eapply nth_error_In; eassumption).
    assert (Hsel : selectedParts st' = without part (selectedParts st)).
    { unfold st', tapSelected; rewrite Hk.
      apply handlePartClick_selected, includes_In; assumption. }
    rewrite Hsel; split; [reflexivity|]; split; [|split; [|split]].
    + apply without_count_same.
    + pose proof (without_length part (selectedParts st)) as Hl.
      pose proof (NoDup_count_le_1 _ part Hnd) as Hle.
      assert (0 < count_occ jsstring_eq_dec (selectedParts st) part)
        by (apply count_occ_In; assumption).
      lia.
    + unfold poolButtonDisabled; simpl; rewrite Hsel.
      apply includes_not_In; rewrite without_In.
      intros [_ H]; apply H; reflexivity.
    + intros other Hother; apply without_count_other; assumption.
Qed.

(** ** Submission *)

(** C10, as the component has it: the fill-in-the-blank path submits the
    trimmed input, and only when it is not empty; the rearrange path
    submits the space-join of the selection, and only when a fragment is
    selected, which gives a non-empty string as soon as one selected
    fragment is not empty or two fragments are selected; the multiple-choice
    path submits the tapped option as it is, so that answer is non-empty
    exactly when the option is.  Nothing is submitted once the question is
    answered. *)
Theorem submitted_answers (isAnswered : bool) (st : CardState)
    (option a : jsstring) :
  (handleInputSubmit isAnswered st = Some a ->
     isAnswered = false /\ a = trim (inputVal st) /\ a <> [])
  /\ (handleRearrangeSubmit isAnswered st = Some a ->
        isAnswered = false /\ selectedParts st <> []
        /\ a = join [SPACE] (selectedParts st)
        /\ ((exists p, In p (selectedParts st) /\ p <> [])
            \/ 2 <= List.length (selectedParts st) -> a <> []))
  /\ (handleMCSelect isAnswered option = Some a ->
        isAnswered = false /\ a = option /\ (a <> [] <-> option <> [])).
Proof.
  split; [|split].
  - unfold handleInputSubmit; destruct isAnswered; simpl; [discriminate|].
    destruct (truthy (trim (inputVal st))) eqn:T; [|discriminate].
    intros E; injection E as <-.
    apply truthy_true in T; auto.
  - unfold handleRearrangeSubmit; destruct isAnswered; simpl; [discriminate|].
    destruct (0 <? List.length (selectedParts st)) eqn:L; [|discriminate].
    intros E; injection E as <-.
    split; [reflexivity|]; split; [|split; [reflexivity|]].
    + apply Nat.ltb_lt in L; intros Hnil; rewrite Hnil in L; simpl in L; lia.
    + intros H; apply join_not_empty; [discriminate | exact H].
  - unfold handleMCSelect; destruct isAnswered; simpl; [discriminate|].
    intros E; injection E as <-; split; [reflexivity|]; split;
      [reflexivity | split; intros H; exact H].
Qed.

(** ** Further properties: hints *)

Lemma without_nil (x : jsstring) (l : list jsstring) :
  without x l = [] <-> forall o, In o l -> o = x.
Proof.
  split.
  - intros E o Hin.
    destruct (jsstring_eq_dec o x) as [|Hne]; [assumption|].
    assert (H : In o (without x l)) by (apply without_In; split; assumption).
    rewrite E in H; contradiction.
  - intros H; destruct (without x l) as [|o r] eqn:E; [reflexivity|].
    assert (Hin : In o (without x l)) by (rewrite E; left; reflexivity).
    apply without_In in Hin; destruct Hin as [Hin Hne].
    elim Hne; apply H; assumption.
Qed.

(** X1: when a multiple-choice question has an option that differs from the
    correct answer, the hint is the template around one of the options of
    the question, that option is not the correct answer, and exactly one
    random draw is made. *)
Theorem multiple_choice_hint_names_wrong_option (q : Question)
    (st : CardState) (rs : RandomSource) (opts : list jsstring) :
  type q = MULTIPLE_CHOICE -> hintText st = [] ->
  options q = Some opts ->
  (exists w, In w opts /\ w <> correctAnswer q) ->
  exists o,
    In o opts /\ o <> correctAnswer q
    /\ hintText (fst (generateHint q st rs))
       = MC_HINT_PREFIX ++ o ++ MC_HINT_SUFFIX
    /\ consumed (snd (generateHint q st rs)) = S (consumed rs).
Proof.
  intros Hty Hfresh Hopts [w [Hw Hne]].
  rewrite generateHint_fresh by assumption.
  unfold hintSwitch, wrongOptionsOf; rewrite Hty, Hopts.
  assert (Hin : In w (without (correctAnswer q) opts))
    by (apply without_In; split; assumption).
  assert (Hlen : 0 < List.length (without (correctAnswer q) opts)).
  { destruct (without (correctAnswer q) opts); [contradiction | simpl; lia]. }
  apply Nat.ltb_lt in Hlen; rewrite Hlen; apply Nat.ltb_lt in Hlen.
  unfold randomIndex; simpl.
  set (i := supply rs (consumed rs)
            mod List.length (without (correctAnswer q) opts)).
  assert (Hi : i < List.length (without (correctAnswer q) opts))
    by (apply Nat.mod_upper_bound; lia).
  pose proof (nth_In _ (@nil unit16) Hi) as Hnth.
  apply without_In in Hnth; destruct Hnth as [Ho Hoc].
  exists (nth i (without (correctAnswer q) opts) []).
  repeat split; assumption.
Qed.

(** X2: the first press on the hint button always opens the hint box; its
    text is empty exactly for a multiple-choice question all of whose
    options equal the correct answer (or that has no options) and for a
    question of another type. *)
Theorem first_press_opens_hint_box (q : Question) (rs : RandomSource) :
  let shown := fst (toggleHint q initialState rs) in
  hintBoxShown false shown = true
  /\ (hintText shown = [] <->
      (type q = MULTIPLE_CHOICE
       /\ forall opts o, options q = Some opts -> In o opts ->
                         o = correctAnswer q)
      \/ exists tag, type q = OTHER tag).
Proof.
  intros shown; unfold shown, toggleHint; simpl.
  rewrite generateHint_fresh by reflexivity; simpl.
  split; [reflexivity|].
  unfold hintSwitch, wrongOptionsOf.
  destruct (type q) as [| | |tag] eqn:Hty.
  - destruct (options q) as [opts|] eqn:Hopts; simpl.
    + destruct (without (correctAnswer q) opts) as [|w ws] eqn:Hw; simpl.
      * split; [|reflexivity].
        intros _; left; split; [reflexivity|].
        intros opts' o E Hin; injection E as <-.
        apply (proj1 (without_nil _ _) Hw); assumption.
      * split; [discriminate|].
        intros [[_ H] | [tag E]]; [|discriminate].
        assert (Hnil : without (correctAnswer q) opts = [])
          by (apply without_nil; intros o Ho; apply (H opts); auto).
        rewrite Hnil in Hw; discriminate.
    + split; [|reflexivity].
      intros _; left; split; [reflexivity|].
      intros opts o E; discriminate.
  - simpl; split; [discriminate|].
    intros [[E _] | [tag E]]; discriminate.
  - simpl; split; [discriminate|].
    intros [[E _] | [tag E]]; discriminate.
  - simpl; split; [|reflexivity].
    intros _; right; exists tag; reflexivity.
Qed.

(** X3: two presses on the hint button in a row leave the card as one
    invocation of hint generation leaves it: the box is open or closed as
    before, and the hint text is there. *)
Theorem double_toggle_is_generate (q : Question) (st : CardState)
    (rs : RandomSource) :
  let once := toggleHint q st rs in
  toggleHint q (fst once) (snd once) = generateHint q st rs.
Proof.
  intros once; unfold once, toggleHint, generateHint.
  destruct st as [iv sel sh ht]; simpl.
  destruct sh; simpl.
  - destruct (truthy ht); simpl; [reflexivity|].
    destruct (hintSwitch q rs); reflexivity.
  - destruct (truthy ht) eqn:T; simpl.
    + reflexivity.
    + destruct (hintSwitch q rs); reflexivity.
Qed.

(** X4: a change of question puts the card back into its initial state,
    whatever it was: the text form and the sentence confirmation submit
    nothing from it, the hint box is closed, and the next hint is computed
    for the new question even if a hint of the old one was cached. *)
Theorem question_change_resets (st : CardState) (q' : Question)
    (rs : RandomSource) :
  let fresh := resetOnQuestionChange st in
  fresh = initialState
  /\ handleInputSubmit false fresh = None
  /\ handleRearrangeSubmit false fresh = None
  /\ hintBoxShown false fresh = false
  /\ generateHint q' fresh rs
     = (setHintText (fst (hintSwitch q' rs)) initialState,
        snd (hintSwitch q' rs)).
Proof.
  intros fresh; unfold fresh.
  assert (E : resetOnQuestionChange st = initialState) by reflexivity.
  rewrite E; repeat split.
  apply generateHint_fresh; reflexivity.
Qed.

(** X14: for a rearrange question the hint shows the first token alone when
    the correct answer has fewer than four tokens and the first two tokens
    otherwise; a correct answer without a space is shown in full. *)
Theorem rearrange_hint_by_length (q : Question) (st : CardState)
    (rs : RandomSource) :
  type q = REARRANGE -> hintText st = [] ->
  let words := split SPACE (correctAnswer q) in
  let hint := hintText (fst (generateHint q st rs)) in
  (List.length words < 4 ->
     hint = REARRANGE_HINT_PREFIX ++ hd [] words ++ REARRANGE_HINT_SUFFIX)
  /\ (4 <= List.length words ->
        hint = REARRANGE_HINT_PREFIX
                 ++ (nth 0 words [] ++ [SPACE] ++ nth 1 words [])
                 ++ REARRANGE_HINT_SUFFIX)
  /\ (~ In SPACE (correctAnswer q) ->
        hint = REARRANGE_HINT_PREFIX ++ correctAnswer q
                 ++ REARRANGE_HINT_SUFFIX).
Proof.
  intros Hty Hfresh words hint.
  assert (Hhint : hint = REARRANGE_HINT_PREFIX
            ++ join [SPACE] (firstn (revealCountOf (List.length words)) words)
            ++ REARRANGE_HINT_SUFFIX).
  { unfold hint; rewrite generateHint_fresh by assumption.
    unfold hintSwitch; rewrite Hty; reflexivity. }
  assert (Hshort : List.length words < 4 ->
            hint = REARRANGE_HINT_PREFIX ++ hd [] words
                     ++ REARRANGE_HINT_SUFFIX).
  { intros Hlt; rewrite Hhint, revealCountOf_cases.
    apply Nat.ltb_lt in Hlt; rewrite Hlt.
    pose proof (split_not_nil SPACE (correctAnswer q)) as Hne.
    fold words in Hne; destruct words as [|w ws]; [congruence|].
    destruct ws; reflexivity. }
  split; [exact Hshort|]; split.
  - intros Hge; rewrite Hhint, revealCountOf_cases.
    apply Nat.ltb_ge in Hge; rewrite Hge; apply Nat.ltb_ge in Hge.
    destruct words as [|w0 [|w1 ws]]; simpl in Hge; try lia.
    destruct ws; reflexivity.
  - intros Hnone.
    assert (Hw : words = [correctAnswer q])
      by (apply split_without_sep; assumption).
    rewrite Hshort by (rewrite Hw; simpl; lia).
    rewrite Hw; reflexivity.
Qed.

(** X15: for a fill-in-the-blank question whose correct answer is empty or
    all white space, the hint announces the length 0 and has the
    upper-casing of the empty string where the first letter goes. *)
Theorem fill_in_blank_hint_of_blank_answer (q : Question) (st : CardState)
    (rs : RandomSource) :
  type q = FILL_IN_BLANK -> hintText st = [] ->
  forallb isWhiteSpace (correctAnswer q) = true ->
  hintText (fst (generateHint q st rs))
  = FIB_HINT_PREFIX ++ [48%N] ++ FIB_HINT_MIDDLE ++ toUpperCase []
      ++ FIB_HINT_SUFFIX.
Proof.
  intros Hty Hfresh Hws.
  rewrite generateHint_fresh by assumption.
  unfold hintSwitch; rewrite Hty; simpl.
  unfold trim; rewrite (trimStart_all_white _ Hws); reflexivity.
Qed.

(** The two situations of the hint along a run that starts in the initial
    state with the random source [rs]: nothing generated yet, or the text
    of the first press. *)
Lemma run_hint_invariant (q : Question) (rs : RandomSource)
    (es : list Event) (cur : CardState * RandomSource) :
  (showHint (fst cur) = false /\ hintText (fst cur) = [] /\ snd cur = rs)
  \/ (hintText (fst cur) = fst (hintSwitch q rs)
      /\ snd cur = snd (hintSwitch q rs) /\ hintSettled q (fst cur)) ->
  (showHint (fst (run q es cur)) = false
   /\ hintText (fst (run q es cur)) = [] /\ snd (run q es cur) = rs)
  \/ (hintText (fst (run q es cur)) = fst (hintSwitch q rs)
      /\ snd (run q es cur) = snd (hintSwitch q rs)).
Proof.
  revert cur; induction es as [|e es IH]; intros cur H.
  - simpl; destruct H as [H | [H1 [H2 _]]]; [left | right]; auto.
  - change (run q (e :: es) cur) with (run q es (handleEvent q e cur)).
    apply IH; destruct H as [[Hs [Ht Hr]] | [Ht [Hr Hset]]].
    + destruct cur as [st r]; simpl in *; subst r.
      destruct e as [v| |ans part]; simpl.
      * left; auto.
      * right; unfold toggleHint; rewrite Hs; simpl.
        pose proof (generateHint_settles q st rs) as Hsettled.
        rewrite generateHint_fresh in * by assumption; simpl in *.
        repeat split; assumption.
      * left; unfold handlePartClick.
        destruct ans; [auto|].
        destruct (includes (selectedParts st) part); simpl; auto.
    + destruct (handleEvent_settled q e cur Hset) as [H1 [H2 H3]].
      right; rewrite H2, H3; auto.
Qed.

(** X16: along any sequence of input edits, hint presses and fragment
    clicks on one question, starting from the initial state, the hint text
    is empty or the text computed from the random source the card started
    with; it is that text whenever the hint box is open, and at most one
    draw is made in the whole run. *)
Theorem shown_hint_is_first_draw (q : Question) (rs : RandomSource)
    (es : list Event) :
  let final := run q es (initialState, rs) in
  (showHint (fst final) = true ->
     hintText (fst final) = fst (hintSwitch q rs))
  /\ (hintText (fst final) = []
      \/ hintText (fst final) = fst (hintSwitch q rs))
  /\ consumed (snd final) <= S (consumed rs).
Proof.
  intros final.
  destruct (run_hint_invariant q rs es (initialState, rs)) as [H | H];
    [left; simpl; auto | |]; fold final in H.
  - destruct H as [Hs [Ht Hr]]; split; [|split].
    + rewrite Hs; discriminate.
    + left; assumption.
    + rewrite Hr; lia.
  - destruct H as [Ht Hr]; split; [|split].
    + intros _; assumption.
    + right; assumption.
    + rewrite Hr; apply hintSwitch_consumed.
Qed.

(** ** Further properties: fragment selection *)

Lemma without_not_In (x : jsstring) (l : list jsstring) :
  ~ In x l -> without x l = l.
Proof.
  induction l as [|p l IH]; simpl; intros H; [reflexivity|].
  destruct (str_eqb p x) eqn:E; simpl.
  - apply str_eqb_eq in E; subst; elim H; left; reflexivity.
  - rewrite IH by (intros Hin; apply H; right; assumption); reflexivity.
Qed.

Lemma without_snoc_same (x : jsstring) (l : list jsstring) :
  without x (l ++ [x]) = without x l.
Proof.
  unfold without; rewrite filter_app; simpl.
  rewrite str_eqb_refl; simpl; apply app_nil_r.
Qed.

(** X5: two clicks on the same fragment undo each other when the fragment
    was not selected; when it was selected they move it to the end of the
    selection, which keeps the same fragments. *)
Theorem part_click_twice (part : jsstring) (st : CardState) :
  let twice := handlePartClick false part (handlePartClick false part st) in
  (~ In part (selectedParts st) -> twice = st)
  /\ (In part (selectedParts st) -> NoDup (selectedParts st) ->
      selectedParts twice = without part (selectedParts st) ++ [part]
      /\ Permutation (selectedParts st) (selectedParts twice)).
Proof.
  intros twice; split.
  - intros Hout; unfold twice, handlePartClick.
    rewrite (proj2 (includes_not_In _ _) Hout); simpl.
    assert (Hin : includes (selectedParts st ++ [part]) part = true)
      by (apply includes_In, in_or_app; right; left; reflexivity).
    rewrite Hin; unfold setSelectedParts; simpl.
    rewrite without_snoc_same, without_not_In by assumption.
    destruct st; reflexivity.
  - intros Hin Hnd.
    assert (Hsel : selectedParts twice
                   = without part (selectedParts st) ++ [part]).
    { unfold twice, handlePartClick.
      rewrite (proj2 (includes_In _ _) Hin); simpl.
      assert (Hout : includes (without part (selectedParts st)) part = false).
      { apply includes_not_In; rewrite without_In.
        intros [_ H]; apply H; reflexivity. }
      rewrite Hout; reflexivity. }
    split; [exact Hsel|].
    assert (Hnd2 : NoDup (selectedParts twice))
      by (unfold twice; do 2 apply handlePartClick_NoDup; assumption).
    rewrite Hsel in *; apply NoDup_Permutation; [assumption | assumption |].
    intros x; rewrite in_app_iff, without_In; simpl.
    destruct (jsstring_eq_dec x part) as [->|Hne].
    + split; [intros _; right; left; reflexivity | intros _; assumption].
    + split; [intros H; left; split; assumption|].
      intros [[H _] | [H | []]]; [assumption | congruence].
Qed.

Lemma tapPoolAll_appends (q : Question) (idxs : list nat)
    (vals : list jsstring) (st : CardState) :
  Forall2 (fun idx v => nth_error (poolOf q) idx = Some v) idxs vals ->
  NoDup (selectedParts st ++ vals) ->
  selectedParts (tapPoolAll q idxs st) = selectedParts st ++ vals.
Proof.
  intros H; revert st; induction H as [|idx v idxs vals Hidx _ IH];
    intros st Hnd.
  - simpl; rewrite app_nil_r; reflexivity.
  - assert (Hout : ~ In v (selectedParts st)).
    { intros Hin; apply NoDup_remove_2 in Hnd; apply Hnd.
      apply in_or_app; left; assumption. }
    assert (Hstep : selectedParts (tapPool q false idx st)
                    = selectedParts st ++ [v]).
    { unfold tapPool, poolButtonDisabled; rewrite Hidx.
      rewrite (proj2 (includes_not_In _ _) Hout); simpl.
      apply handlePartClick_unselected, includes_not_In; assumption. }
    change (tapPoolAll q (idx :: idxs) st)
      with (tapPoolAll q idxs (tapPool q false idx st)).
    rewrite IH; rewrite Hstep, <- app_assoc; [reflexivity | exact Hnd].
Qed.

(** X6: tapping pool buttons whose fragments are pairwise different, from
    the initial state, selects these fragments in the order of the taps,
    and the confirmation then submits them joined by single spaces; with no
    tap nothing is submitted. *)
Theorem taps_select_in_order (q : Question) (idxs : list nat)
    (vals : list jsstring) :
  Forall2 (fun idx v => nth_error (poolOf q) idx = Some v) idxs vals ->
  NoDup vals ->
  let st := tapPoolAll q idxs initialState in
  selectedParts st = vals
  /\ handleRearrangeSubmit false st
     = match vals with
       | [] => None
       | _ :: _ => Some (join [SPACE] vals)
       end.
Proof.
  intros H Hnd st.
  assert (Hsel : selectedParts st = vals)
    by (apply (tapPoolAll_appends q idxs vals initialState); assumption).
  split; [exact Hsel|].
  unfold handleRearrangeSubmit; rewrite Hsel.
  destruct vals; reflexivity.
Qed.

(** X8: when the fragments tapped in order, joined by spaces, have the
    normal form of the correct answer, confirming the selection gives an
    answer that is judged correct. *)
Theorem assembled_sentence_is_correct (q : Question) (idxs : list nat)
    (vals : list jsstring) :
  type q = REARRANGE ->
  Forall2 (fun idx v => nth_error (poolOf q) idx = Some v) idxs vals ->
  NoDup vals ->
  join [SPACE] vals <> [] ->
  normalizeSentence (join [SPACE] vals)
    = normalizeSentence (correctAnswer q) ->
  isCorrect q (handleRearrangeSubmit false (tapPoolAll q idxs initialState))
  = true.
Proof.
  intros Hty H Hnd Hne Hnorm.
  assert (Hsel : selectedParts (tapPoolAll q idxs initialState) = vals)
    by (apply (tapPoolAll_appends q idxs vals initialState); assumption).
  unfold handleRearrangeSubmit; rewrite Hsel.
  destruct vals as [|v vals']; [elim Hne; reflexivity|].
  simpl negb; simpl andb; cbv iota.
  apply rearrange_compares_normal_forms; assumption.
Qed.

Lemma handlePartClick_incl (isAnswered : bool) (part : jsstring)
    (st : CardState) (pool : list jsstring) :
  In part pool \/ In part (selectedParts st) ->
  incl (selectedParts st) pool ->
  incl (selectedParts (handlePartClick isAnswered part st)) pool.
Proof.
  intros Hpart Hincl; unfold handlePartClick.
  destruct isAnswered; [assumption|].
  destruct (includes (selectedParts st) part) eqn:E; simpl.
  - intros x Hx; apply without_In in Hx; apply Hincl; apply Hx.
  - intros x Hx; apply in_app_or in Hx; destruct Hx as [Hx | [<- | []]].
    + apply Hincl; assumption.
    + destruct Hpart as [H | H]; [assumption | apply Hincl; assumption].
Qed.

(** X7: whatever buttons are pressed on the card of a question, every
    selected fragment is a fragment of the pool, no value is selected
    twice, and the selection is no longer than the pool. *)
Theorem selection_within_pool (q : Question) (st : CardState) :
  assembled q st ->
  incl (selectedParts st) (poolOf q)
  /\ NoDup (selectedParts st)
  /\ List.length (selectedParts st) <= List.length (poolOf q).
Proof.
  intros H.
  assert (Hboth : incl (selectedParts st) (poolOf q)
                  /\ NoDup (selectedParts st)).
  { induction H as [|st v _ IH|st rs _ IH|st ans idx _ [IH1 IH2]
                    |st ans idx _ [IH1 IH2]].
    - split; [intros x [] | constructor].
    - exact IH.
    - rewrite toggleHint_selectedParts; exact IH.
    - unfold tapPool.
      destruct (nth_error (poolOf q) idx) as [part|] eqn:Hidx; [|auto].
      destruct (poolButtonDisabled ans st part); [auto|].
      split; [|apply handlePartClick_NoDup; assumption].
      apply handlePartClick_incl; [|assumption].
      left; eapply nth_error_In; eassumption.
    - unfold tapSelected.
      destruct (nth_error (selectedParts st) idx) as [part|] eqn:Hidx; [|auto].
      destruct ans; [auto|].
      split; [|apply handlePartClick_NoDup; assumption].
      apply handlePartClick_incl; [|assumption].
      right; eapply nth_error_In; eassumption. }
  destruct Hboth as [Hincl Hnd]; repeat split; try assumption.
  apply NoDup_incl_length; assumption.
Qed.

(** The buttons only produce states that the handlers can reach. *)
Lemma assembled_reachable (q : Question) (st : CardState) :
  assembled q st -> reachable st.
Proof.
  induction 1 as [|st v _ IH|st rs _ IH|st ans idx _ IH|st ans idx _ IH].
  - apply reach_init.
  - apply reach_input; exact IH.
  - apply reach_toggle; exact IH.
  - unfold tapPool.
    destruct (nth_error (poolOf q) idx) as [part|]; [|exact IH].
    destruct (poolButtonDisabled ans st part); [exact IH|].
    apply reach_part; exact IH.
  - unfold tapSelected.
    destruct (nth_error (selectedParts st) idx) as [part|]; [|exact IH].
    destruct ans; [exact IH | apply reach_part; exact IH].
Qed.

(** The buttons only select fragments of the pool. *)
Lemma assembled_selection_in_pool (q : Question) (st : CardState) :
  assembled q st -> incl (selectedParts st) (poolOf q).
Proof.
  induction 1 as [|st v _ IH|st rs _ IH|st ans idx _ IH|st ans idx _ IH].
  - intros x [].
  - exact IH.
  - rewrite toggleHint_selectedParts; exact IH.
  - unfold tapPool.
    destruct (nth_error (poolOf q) idx) as [part|] eqn:Hidx; [|exact IH].
    destruct (poolButtonDisabled ans st part); [exact IH|].
    apply handlePartClick_incl; [|exact IH].
    left; eapply nth_error_In; eassumption.
  - unfold tapSelected.
    destruct (nth_error (selectedParts st) idx) as [part|] eqn:Hidx;
      [|exact IH].
    destruct ans; [exact IH|].
    apply handlePartClick_incl; [|exact IH].
    right; eapply nth_error_In; eassumption.
Qed.

(** ** Further properties: evaluation and rendering *)

Lemma isWord_true (w : jsstring) :
  isWord w = true <->
  w <> [] /\ forallb (fun c => negb (isWhiteSpace c)) w = true.
Proof.
  unfold isWord; rewrite andb_true_iff, truthy_true; reflexivity.
Qed.

Lemma words_word_app (w rest : jsstring) :
  isWord w = true ->
  match rest with
  | [] => True
  | c :: _ => isWhiteSpace c = true
  end ->
  words (w ++ rest) = w :: words rest.
Proof.
  induction w as [|c w IH]; intros Hw Hrest; [discriminate|].
  apply isWord_true in Hw; destruct Hw as [_ Hw]; simpl in Hw.
  apply andb_true_iff in Hw; destruct Hw as [Hc Hw].
  apply negb_true_iff in Hc.
  destruct w as [|c2 w'].
  - simpl; rewrite Hc.
    destruct rest as [|c' r]; [reflexivity|].
    rewrite Hrest; reflexivity.
  - assert (Hw' : isWord (c2 :: w') = true)
      by (apply isWord_true; split; [discriminate | assumption]).
    specialize (IH Hw' Hrest).
    simpl in Hw; apply andb_true_iff in Hw; destruct Hw as [Hc2 _].
    apply negb_true_iff in Hc2.
    change ((c :: c2 :: w') ++ rest) with (c :: c2 :: (w' ++ rest)).
    change ((c2 :: w') ++ rest) with (c2 :: (w' ++ rest)) in IH.
    cbn [words]; cbn [words] in IH; rewrite Hc, Hc2.
    rewrite Hc2 in IH; rewrite IH; reflexivity.
Qed.

Lemma words_join (l : list jsstring) :
  Forall (fun w => isWord w = true) l -> words (join [SPACE] l) = l.
Proof.
  induction 1 as [|w l Hw Hl IH]; [reflexivity|].
  destruct l as [|w' l'].
  - simpl; rewrite <- (app_nil_r w) at 1.
    rewrite words_word_app; [reflexivity | assumption | exact I].
  - rewrite join_cons by discriminate.
    change ([SPACE] ++ join [SPACE] (w' :: l'))
      with (SPACE :: join [SPACE] (w' :: l')).
    rewrite words_word_app; [|assumption | reflexivity].
    f_equal; exact IH.
Qed.

Lemma words_are_words (s : jsstring) :
  Forall (fun w => isWord w = true) (words s).
Proof.
  eapply Forall_impl; [|apply words_shape].
  intros w H; apply isWord_true; exact H.
Qed.

(** X10: the normalisation used for rearranged sentences is idempotent and
    keeps the words of the string; a list of words joined by single spaces
    is already in normal form. *)
Theorem normalizeSentence_idempotent (s : jsstring) (l : list jsstring) :
  normalizeSentence (normalizeSentence s) = normalizeSentence s
  /\ words (normalizeSentence s) = words s
  /\ (Forall (fun w => isWord w = true) l ->
      normalizeSentence (join [SPACE] l) = join [SPACE] l).
Proof.
  assert (Hw : words (normalizeSentence s) = words s).
  { rewrite normalizeSentence_words; apply words_join, words_are_words. }
  split; [|split; [exact Hw|]].
  - rewrite (normalizeSentence_words (normalizeSentence s)), Hw.
    symmetry; apply normalizeSentence_words.
  - intros Hl; rewrite normalizeSentence_words, words_join by assumption.
    reflexivity.
Qed.

(** A selection of single words without a repeated value is judged
    incorrect when the correct answer has a repeated word. *)
Lemma word_selection_rejected (q : Question) (sel : list jsstring) :
  type q = REARRANGE ->
  NoDup sel ->
  Forall (fun w => isWord w = true) sel ->
  ~ NoDup (words (correctAnswer q)) ->
  isCorrect q (Some (join [SPACE] sel)) = false.
Proof.
  intros Hty Hnd Hwords Hdup.
  destruct (isCorrect q (Some (join [SPACE] sel))) eqn:E; [|reflexivity].
  exfalso; apply Hdup.
  assert (Hne : join [SPACE] sel <> []).
  { intros Hnil; rewrite Hnil in E; discriminate. }
  apply (rearrange_compares_normal_forms q _ Hty Hne) in E.
  apply normalizeSentence_eq_words in E.
  rewrite words_join in E by assumption.
  rewrite <- E; assumption.
Qed.

(** A blank sentence has the empty normal form, and only a blank one. *)
Lemma normalizeSentence_nil (s : jsstring) :
  normalizeSentence s = [] <-> words s = [].
Proof.
  rewrite normalizeSentence_words; split; [|intros ->; reflexivity].
  intros E; pose proof (words_shape s) as Hs.
  destruct (words s) as [|w ws]; [reflexivity|].
  exfalso; revert E; apply join_not_empty; [discriminate|].
  left; exists w; split; [left; reflexivity|].
  inversion Hs as [|? ? [Hw _] _]; assumption.
Qed.

(** X9: when the correct answer of a rearrange question contains some word
    twice and the selected fragments are single words, the selection that
    is submitted is judged incorrect, whatever was clicked: the selection
    never holds a value twice. *)
Theorem repeated_word_cannot_be_assembled (q : Question) (st : CardState)
    (isAnswered : bool) (a : jsstring) :
  type q = REARRANGE ->
  reachable st ->
  Forall (fun w => isWord w = true) (selectedParts st) ->
  ~ NoDup (words (correctAnswer q)) ->
  handleRearrangeSubmit isAnswered st = Some a ->
  isCorrect q (Some a) = false.
Proof.
  intros Hty Hr Hwords Hdup Hsub.
  pose proof (reachable_NoDup st Hr) as Hnd.
  unfold handleRearrangeSubmit in Hsub.
  destruct (negb isAnswered && (0 <? List.length (selectedParts st)));
    [|discriminate].
  injection Hsub as <-.
  destruct (isCorrect q (Some (join [SPACE] (selectedParts st)))) eqn:E;
    [|reflexivity].
  exfalso; apply Hdup.
  assert (Hne : join [SPACE] (selectedParts st) <> []).
  { intros Hnil; rewrite Hnil in E; discriminate. }
  apply (rearrange_compares_normal_forms q _ Hty Hne) in E.
  apply normalizeSentence_eq_words in E.
  rewrite words_join in E by assumption.
  rewrite <- E; assumption.
Qed.

Lemma trimStart_idempotent (s : jsstring) :
  trimStart (trimStart s) = trimStart s.
Proof.
  induction s as [|c s IH]; simpl; [reflexivity|].
  destruct (isWhiteSpace c) eqn:Hc; [exact IH|].
  simpl; rewrite Hc; reflexivity.
Qed.

Lemma trimStart_trimEnd (s : jsstring) :
  trimStart s = s -> trimStart (trimEnd s) = trimEnd s.
Proof.
  destruct s as [|c r]; [reflexivity|].
  intros H; rewrite trimEnd_cons.
  destruct (forallb isWhiteSpace (c :: r)); [reflexivity|].
  simpl in *; destruct (isWhiteSpace c) eqn:Hc; [|reflexivity].
  (* the string starts with white space and is its own [trimStart] *)
  exfalso.
  assert (Hlen : List.length (trimStart r) <= List.length r).
  { clear; induction r as [|x r IH]; simpl; [lia|].
    destruct (isWhiteSpace x); simpl; lia. }
  rewrite H in Hlen; simpl in Hlen; lia.
Qed.

(** [trim] is idempotent. *)
Lemma trim_idempotent (s : jsstring) : trim (trim s) = trim s.
Proof.
  unfold trim.
  rewrite trimStart_trimEnd by apply trimStart_idempotent.
  unfold trimEnd; rewrite rev_involutive, trimStart_idempotent.
  reflexivity.
Qed.

(** X11: for a fill-in-the-blank question, submitting the text input gives
    an answer judged correct exactly when the trimmed input is not empty
    and has the lower-casing of the correct answer; the answer that is
    submitted is its own trimming. *)
Theorem typed_answer_verdict (q : Question) (st : CardState) :
  type q = FILL_IN_BLANK ->
  (isCorrect q (handleInputSubmit false st) = true <->
   trim (inputVal st) <> []
   /\ toLowerCase (trim (inputVal st)) = toLowerCase (correctAnswer q))
  /\ (forall a, handleInputSubmit false st = Some a -> trim a = a).
Proof.
  intros Hty; unfold handleInputSubmit; simpl; split.
  - destruct (truthy (trim (inputVal st))) eqn:T.
    + rewrite isCorrect_caseless by (rewrite Hty; reflexivity).
      apply truthy_true in T; split.
      * intros [ua [E [_ H]]]; injection E as <-; split; assumption.
      * intros [_ H]; exists (trim (inputVal st)); repeat split; assumption.
    + apply truthy_false in T; simpl; split; [discriminate|].
      intros [H _]; contradiction.
  - intros a; destruct (truthy (trim (inputVal st))); [|discriminate].
    intros E; injection E as <-; apply trim_idempotent.
Qed.

(** The correct answer itself, when it is not empty, is judged correct. *)
Lemma isCorrect_canonical (q : Question) :
  correctAnswer q <> [] -> isCorrect q (Some (correctAnswer q)) = true.
Proof.
  intros Hne; unfold isCorrect.
  apply truthy_true in Hne; rewrite Hne; simpl.
  destruct (isRearrange (type q)); apply str_eqb_refl.
Qed.

(** X12: once a question is answered with a non-empty answer, the looks of
    the option buttons agree with the verdict in one direction: if the
    button of the given answer is green the answer is judged correct, and
    if the answer is judged incorrect that button is red; a red button is
    always the given answer, and a button is green exactly when its option
    is the correct answer. *)
Theorem option_style_agrees_with_verdict (q : Question) (ua o : jsstring) :
  ua <> [] ->
  (optionButtonStyle q true (Some ua) ua = StyleCorrect ->
     isCorrect q (Some ua) = true)
  /\ (isCorrect q (Some ua) = false ->
        optionButtonStyle q true (Some ua) ua = StyleWrong)
  /\ (optionButtonStyle q true (Some ua) o = StyleWrong ->
        o = ua /\ ua <> correctAnswer q)
  /\ (optionButtonStyle q true (Some ua) o = StyleCorrect <->
        o = correctAnswer q).
Proof.
  intros Hne; unfold optionButtonStyle, isUserAnswer.
  split; [|split; [|split]].
  - destruct (str_eqb ua (correctAnswer q)) eqn:E.
    + intros _; apply str_eqb_eq in E; rewrite E.
      apply isCorrect_canonical; rewrite <- E; assumption.
    + rewrite str_eqb_refl, str_eqb_sym, E; discriminate.
  - intros Hwrong.
    destruct (str_eqb ua (correctAnswer q)) eqn:E.
    + apply str_eqb_eq in E; rewrite E, isCorrect_canonical in Hwrong;
        [discriminate | rewrite <- E; assumption].
    + rewrite str_eqb_refl, str_eqb_sym, E; reflexivity.
  - destruct (str_eqb o (correctAnswer q)); [discriminate|].
    destruct (str_eqb o ua) eqn:E1; simpl; [|discriminate].
    destruct (str_eqb (correctAnswer q) ua) eqn:E2; simpl; [discriminate|].
    intros _; apply str_eqb_eq in E1; apply str_eqb_neq in E2.
    split; [assumption | congruence].
  - destruct (str_eqb o (correctAnswer q)) eqn:E.
    + apply str_eqb_eq in E; split; auto.
    + apply str_eqb_neq in E; split; [|contradiction].
      destruct (str_eqb o ua && negb (str_eqb (correctAnswer q) ua));
        discriminate.
Qed.

Lemma removeFirst_absent (c : unit16) (s : jsstring) :
  ~ In c s -> removeFirst c s = s.
Proof.
  induction s as [|x r IH]; simpl; intros H; [reflexivity|].
  destruct (N.eqb x c) eqn:E.
  - apply N.eqb_eq in E; subst; elim H; left; reflexivity.
  - rewrite IH by (intros Hin; apply H; right; assumption); reflexivity.
Qed.

Lemma removeFirst_present (c : unit16) (s : jsstring) :
  In c s ->
  List.length (removeFirst c s) + 1 = List.length s
  /\ count_occ N.eq_dec (removeFirst c s) c + 1 = count_occ N.eq_dec s c.
Proof.
  induction s as [|x r IH]; simpl; intros H; [contradiction|].
  destruct (N.eqb x c) eqn:E.
  - apply N.eqb_eq in E; subst x.
    destruct (N.eq_dec c c); [lia | congruence].
  - apply N.eqb_neq in E.
    destruct H as [H | H]; [congruence|].
    destruct (IH H) as [H1 H2]; simpl.
    destruct (N.eq_dec x c); [congruence | lia].
Qed.

Lemma removeFirst_others (c : unit16) (s : jsstring) :
  filter (fun x => negb (N.eqb x c)) (removeFirst c s)
  = filter (fun x => negb (N.eqb x c)) s.
Proof.
  induction s as [|x r IH]; simpl; [reflexivity|].
  destruct (N.eqb x c) eqn:E; simpl; [reflexivity|].
  rewrite E, IH; reflexivity.
Qed.

Lemma removeFirst_split (c : unit16) (pre post : jsstring) :
  ~ In c pre -> removeFirst c (pre ++ c :: post) = pre ++ post.
Proof.
  induction pre as [|x pre IH]; simpl; intros H.
  - rewrite N.eqb_refl; reflexivity.
  - destruct (N.eqb x c) eqn:E.
    + apply N.eqb_eq in E; subst; elim H; left; reflexivity.
    + rewrite IH by (intros Hin; apply H; right; assumption); reflexivity.
Qed.

Lemma first_occurrence (c : unit16) (s : jsstring) :
  In c s -> exists pre post, s = pre ++ c :: post /\ ~ In c pre.
Proof.
  induction s as [|x r IH]; intros H; [contradiction|].
  destruct (N.eq_dec x c) as [->|Hne].
  - exists [], r; split; [reflexivity | intros []].
  - destruct H as [H | H]; [congruence|].
    destruct (IH H) as [pre [post [E Hpre]]].
    exists (x :: pre), post; split; [rewrite E; reflexivity|].
    intros [Hx | Hx]; [congruence | contradiction].
Qed.

(** X13: the address given to the audio player is the audio address of the
    question without its first space: when the address is cut at its first
    space, the player gets what is before it followed by what is after it;
    so the other code units are kept in order, an address without a space
    is passed unchanged, and the address passed on still has a space
    exactly when the original has two or more. *)
Theorem audio_src_drops_first_space (q : Question) (url : jsstring) :
  audioUrl q = Some url -> url <> [] ->
  exists src,
    audioPlayerSrc q = Some src
    /\ (forall pre post,
          url = pre ++ SPACE :: post -> ~ In SPACE pre -> src = pre ++ post)
    /\ (In SPACE url ->
        exists pre post,
          url = pre ++ SPACE :: post /\ ~ In SPACE pre /\ src = pre ++ post)
    /\ filter (fun x => negb (N.eqb x SPACE)) src
       = filter (fun x => negb (N.eqb x SPACE)) url
    /\ (~ In SPACE url -> src = url)
    /\ (In SPACE url ->
        List.length src + 1 = List.length url
        /\ count_occ N.eq_dec src SPACE + 1 = count_occ N.eq_dec url SPACE)
    /\ (In SPACE src <-> 2 <= count_occ N.eq_dec url SPACE).
Proof.
  intros Hurl Hne; exists (removeFirst SPACE url).
  unfold audioPlayerSrc; rewrite Hurl.
  apply truthy_true in Hne; rewrite Hne.
  split; [reflexivity|]; split; [|split].
  - intros pre post -> Hpre; apply removeFirst_split; assumption.
  - intros Hin; destruct (first_occurrence SPACE url Hin)
      as [pre [post [E Hpre]]].
    exists pre, post; split; [exact E|]; split; [exact Hpre|].
    rewrite E; apply removeFirst_split; assumption.
  - split; [apply removeFirst_others|].
    split; [apply removeFirst_absent|]; split; [apply removeFirst_present|].
    destruct (in_dec N.eq_dec SPACE url) as [Hin | Hout].
    + destruct (removeFirst_present SPACE url Hin) as [_ Hc].
      rewrite (count_occ_In N.eq_dec); lia.
    + rewrite removeFirst_absent by assumption.
      split; [contradiction|].
      rewrite (proj1 (count_occ_not_In N.eq_dec url SPACE) Hout); lia.
Qed.

(** X17: a tap on an option button of a multiple-choice question submits
    only when the question is not answered, and what it submits is the
    option at that position of the question; that answer is judged correct
    exactly when it is not empty and has the lower-casing of the correct
    answer, in particular when it is the correct answer itself. *)
Theorem tapped_option_verdict (q : Question) (isAnswered : bool) (idx : nat)
    (a : jsstring) :
  type q = MULTIPLE_CHOICE ->
  tapOption q isAnswered idx = Some a ->
  isAnswered = false
  /\ (exists opts,
        options q = Some opts /\ nth_error opts idx = Some a /\ In a opts)
  /\ (isCorrect q (Some a) = true <->
      a <> [] /\ toLowerCase a = toLowerCase (correctAnswer q))
  /\ (a = correctAnswer q -> a <> [] -> isCorrect q (Some a) = true).
Proof.
  intros Hty; unfold tapOption, handleMCSelect.
  destruct (options q) as [opts|] eqn:Hopts; [|discriminate].
  destruct (nth_error opts idx) as [opt|] eqn:Hidx; [|discriminate].
  destruct isAnswered; intros E; cbn in E; [discriminate|].
  injection E as <-.
  split; [reflexivity|]; split; [|split].
  - exists opts; repeat split; try assumption.
    eapply nth_error_In; eassumption.
  - rewrite isCorrect_caseless by (rewrite Hty; reflexivity); split.
    + intros [ua [E [Hne H]]]; injection E as <-; split; assumption.
    + intros [Hne H]; exists opt; repeat split; assumption.
  - intros -> Hne; apply isCorrect_canonical; assumption.
Qed.

End Component.

(** ** Evaluation of rearranged sentences *)

(** C4: for a rearrange question, the submitted answer is judged correct
    exactly when the two strings are equal, code unit by code unit, after
    every run of white space is replaced by one space and both are trimmed,
    which is to say when they have the same words in the same order; the
    case mapping plays no part in it.  This holds for every submitted
    string when the correct answer has a word in it, and for every
    submitted string that is not empty whatever the correct answer is; the
    empty answer and the absent one are judged incorrect. *)
Theorem isCorrect_rearrange (toLowerCase : jsstring -> jsstring)
    (q : Question) (ua : jsstring) :
  type q = REARRANGE ->
  (ua <> [] \/ words (correctAnswer q) <> [] ->
   (isCorrect toLowerCase q (Some ua) = true <->
    normalizeSentence ua = normalizeSentence (correctAnswer q))
   /\ (isCorrect toLowerCase q (Some ua) = true <->
       words ua = words (correctAnswer q)))
  /\ isCorrect toLowerCase q (Some []) = false
  /\ isCorrect toLowerCase q None = false
  /\ (forall lower : jsstring -> jsstring,
        isCorrect lower q (Some ua) = isCorrect toLowerCase q (Some ua)).
Proof.
  intros Hty; split; [|split; [reflexivity|]; split; [reflexivity|]].
  - intros Hdom.
    assert (Hnorm : isCorrect toLowerCase q (Some ua) = true <->
              normalizeSentence ua = normalizeSentence (correctAnswer q)).
    { destruct ua as [|c ua'].
      - destruct Hdom as [Hne | Hw]; [elim Hne; reflexivity|].
        split; [discriminate|].
        intros E; exfalso; apply Hw.
        apply (normalizeSentence_nil (correctAnswer q)).
        rewrite <- E; reflexivity.
      - apply rearrange_compares_normal_forms; [assumption | discriminate]. }
    split; [exact Hnorm|].
    rewrite <- normalizeSentence_eq_words; exact Hnorm.
  - intros lower; unfold isCorrect; rewrite Hty; reflexivity.
Qed.

(** C1: on the question with the sentence [the cat saw the dog] and one
    pool fragment per word, the word [the] is at the pool positions 0 and
    3.  A tap on position 0 selects one [the] and disables the buttons of
    both copies, a tap on position 3 then changes nothing, so the second
    copy cannot be selected; and whatever buttons are pressed, the sentence
    that is submitted is judged incorrect. *)
Theorem repeated_fragment_is_lost
    (toLowerCase toUpperCase : jsstring -> jsstring) :
  let st1 := tapPool Samples.theDogQ false 0 initialState in
  nth_error (poolOf Samples.theDogQ) 0 = Some (lit "the")
  /\ nth_error (poolOf Samples.theDogQ) 3 = Some (lit "the")
  /\ selectedParts st1 = [lit "the"]
  /\ enabledPositions Samples.theDogQ false st1 = [1; 2; 4]
  /\ tapPool Samples.theDogQ false 3 st1 = st1
  /\ (forall st isAnswered a,
        assembled toUpperCase Samples.theDogQ st ->
        handleRearrangeSubmit isAnswered st = Some a ->
        isCorrect toLowerCase Samples.theDogQ (Some a) = false).
Proof.
  intros st1.
  split; [reflexivity|]; split; [reflexivity|]; split; [reflexivity|].
  split; [reflexivity|]; split; [reflexivity|].
  intros st isAnswered a Hasm Hsub.
  unfold handleRearrangeSubmit in Hsub.
  destruct (negb isAnswered && (0 <? List.length (selectedParts st)));
    [|discriminate].
  injection Hsub as <-.
  apply word_selection_rejected.
  - reflexivity.
  - apply (reachable_NoDup toUpperCase), (assembled_reachable _ _ _ Hasm).
  - apply Forall_forall; intros w Hw.
    apply (assembled_selection_in_pool _ _ _ Hasm) in Hw.
    simpl in Hw.
    repeat (destruct Hw as [<- | Hw]; [reflexivity|]); contradiction.
  - intros H; inversion H as [|x l Hnotin _]; apply Hnotin.
    right; right; left; reflexivity.
Qed.

(** ** Runs on the sample questions *)

Import Samples.

Example paris_any_case :
  isCorrect toLowerCaseAscii blankQ (Some (lit " PARIS ")) = true
  /\ isCorrect toLowerCaseAscii capitalQ (Some (lit "Paris")) = true
  /\ isCorrect toLowerCaseAscii capitalQ (Some (lit "London")) = false.
Proof. repeat split; reflexivity. Qed.

Example cats_in_order :
  isCorrect toLowerCaseAscii catsQ (Some (lit "I love cats")) = true
  /\ isCorrect toLowerCaseAscii catsQ (Some (lit "love I cats")) = false
  /\ isCorrect toLowerCaseAscii catsQ (Some (lit " I  love cats")) = true
  /\ isCorrect toLowerCaseAscii catsQ (Some (lit "i love cats")) = false.
Proof. repeat split; reflexivity. Qed.

Example single_option_has_no_hint :
  hintSwitch toUpperCaseAscii singleOptionQ randomSource = ([], randomSource).
Proof. reflexivity. Qed.

Example wrong_option_is_drawn_once :
  let first := generateHint toUpperCaseAscii capitalQ initialState randomSource in
  hintText (fst first) = MC_HINT_PREFIX ++ lit "Rome" ++ MC_HINT_SUFFIX
  /\ consumed (snd first) = 1
  /\ generateHint toUpperCaseAscii capitalQ (fst first) (snd first) = first.
Proof. repeat split; reflexivity. Qed.

Example one_tap_hides_both_copies :
  enabledPositions theDogQ false initialState = [0; 1; 2; 3; 4]
  /\ enabledPositions theDogQ false (tapPool theDogQ false 0 initialState)
     = [1; 2; 4]
  /\ selectedParts
       (tapPool theDogQ false 3 (tapPool theDogQ false 0 initialState))
     = [lit "the"].
Proof. repeat split; reflexivity. Qed.

(** ** The theorems at concrete inputs *)

Lemma isCorrect_multiple_choice_witness :
  type capitalQ = MULTIPLE_CHOICE
  /\ isCorrect toLowerCaseAscii capitalQ (Some (lit "PARIS")) = true.
Proof.
  split; [reflexivity|].
  apply (proj1 (isCorrect_multiple_choice toLowerCaseAscii capitalQ
                  (Some (lit "PARIS")) eq_refl)).
  exists (lit "PARIS"); split; [reflexivity|]; split;
    [discriminate | reflexivity].
Defined.

Lemma isCorrect_other_type_witness :
  type essayQ = OTHER (lit "ESSAY")
  /\ isCorrect toLowerCaseAscii essayQ (Some (lit "paris")) = true.
Proof.
  split; [reflexivity|].
  apply (isCorrect_other_type toLowerCaseAscii essayQ (lit "ESSAY")
           (Some (lit "paris")) eq_refl).
  exists (lit "paris"); split; [reflexivity|]; split;
    [discriminate | reflexivity].
Defined.

Lemma isCorrect_rearrange_witness :
  type catsQ = REARRANGE
  /\ (lit "I  love cats " <> [] \/ words (correctAnswer catsQ) <> [])
  /\ isCorrect toLowerCaseAscii catsQ (Some (lit "I  love cats ")) = true
  /\ (words (correctAnswer catsQ) <> []
      /\ (isCorrect toLowerCaseAscii catsQ (Some (lit "")) = true <->
          normalizeSentence (lit "")
          = normalizeSentence (correctAnswer catsQ))).
Proof.
  assert (Hne : lit "I  love cats " <> []) by (intros H; discriminate H).
  assert (Hw : words (correctAnswer catsQ) <> [])
    by (intros H; vm_compute in H; discriminate H).
  split; [reflexivity|]; split; [left; exact Hne|]; split.
  - destruct (isCorrect_rearrange toLowerCaseAscii catsQ
                (lit "I  love cats ") eq_refl) as [Hiff _].
    destruct (Hiff (or_introl Hne)) as [Hnorm _].
    apply Hnorm; reflexivity.
  - split; [exact Hw|].
    destruct (isCorrect_rearrange toLowerCaseAscii catsQ (lit "") eq_refl)
      as [Hiff _].
    exact (proj1 (Hiff (or_intror Hw))).
Defined.

Lemma repeated_fragment_is_lost_witness :
  assembled toUpperCaseAscii theDogQ
    (tapPool theDogQ false 4 (tapPool theDogQ false 2
       (tapPool theDogQ false 1 (tapPool theDogQ false 0 initialState))))
  /\ handleRearrangeSubmit false
       (tapPool theDogQ false 4 (tapPool theDogQ false 2
          (tapPool theDogQ false 1 (tapPool theDogQ false 0 initialState))))
     = Some (lit "the cat saw dog")
  /\ isCorrect toLowerCaseAscii theDogQ (Some (lit "the cat saw dog")) = false.
Proof.
  assert (Ha : assembled toUpperCaseAscii theDogQ
                 (tapPool theDogQ false 4 (tapPool theDogQ false 2
                    (tapPool theDogQ false 1
                       (tapPool theDogQ false 0 initialState)))))
    by (do 4 apply asm_pool; apply asm_init).
  split; [exact Ha|]; split; [reflexivity|].
  destruct (repeated_fragment_is_lost toLowerCaseAscii toUpperCaseAscii)
    as [_ [_ [_ [_ [_ Hlost]]]]].
  exact (Hlost _ false (lit "the cat saw dog") Ha eq_refl).
Defined.

Lemma isCorrect_absent_or_empty_witness :
  truthy_opt (Some (lit "")) = false
  /\ isCorrect toLowerCaseAscii emptySentenceQ (Some (lit "")) = false
  /\ isCorrect toLowerCaseAscii capitalQ None = false.
Proof.
  split; [reflexivity|].
  destruct (isCorrect_absent_or_empty toLowerCaseAscii emptySentenceQ)
    as [_ [_ Hguard]].
  split; [exact (Hguard (Some (lit "")) eq_refl)|].
  exact (proj1 (isCorrect_absent_or_empty toLowerCaseAscii capitalQ)).
Defined.

Lemma generateHint_idempotent_witness :
  let first := generateHint toUpperCaseAscii capitalQ initialState
                 randomSource in
  hintText (fst first) <> []
  /\ generateHint toUpperCaseAscii singleOptionQ (fst first) randomSource
     = (fst first, randomSource).
Proof.
  intros first.
  assert (Hne : hintText (fst first) <> []) by discriminate.
  split; [exact Hne|].
  destruct (generateHint_idempotent toUpperCaseAscii capitalQ initialState
              randomSource) as [_ [_ [_ [_ [_ Hguard]]]]].
  exact (Hguard Hne singleOptionQ randomSource).
Defined.

Lemma rearrange_hint_prefix_witness :
  type theDogQ = REARRANGE /\ hintText initialState = []
  /\ 3 <= List.length (split SPACE (correctAnswer theDogQ))
  /\ hintText (fst (generateHint toUpperCaseAscii theDogQ initialState
                      randomSource))
     = REARRANGE_HINT_PREFIX ++ lit "the cat" ++ REARRANGE_HINT_SUFFIX
  /\ lit "the cat" <> correctAnswer theDogQ.
Proof.
  split; [reflexivity|]; split; [reflexivity|]; split; [simpl; lia|].
  destruct (rearrange_hint_prefix toUpperCaseAscii theDogQ initialState
              randomSource eq_refl eq_refl) as [Htext [_ Hlong]].
  split; [exact Htext|].
  destruct (Hlong ltac:(simpl; lia)) as [_ [_ [Hne _]]]; exact Hne.
Defined.

Lemma fill_in_blank_hint_witness :
  type blankQ = FILL_IN_BLANK
  /\ type (question FILL_IN_BLANK (lit "Porto") None None) = FILL_IN_BLANK
  /\ hintText initialState = []
  /\ hintText (fst (generateHint toUpperCaseAscii blankQ initialState
                      randomSource))
     = FIB_HINT_PREFIX ++ lit "5" ++ FIB_HINT_MIDDLE ++ lit "P"
         ++ FIB_HINT_SUFFIX
  /\ hintText (fst (generateHint toUpperCaseAscii blankQ initialState
                      randomSource))
     = hintText (fst (generateHint toUpperCaseAscii
                        (question FILL_IN_BLANK (lit "Porto") None None)
                        initialState randomSource)).
Proof.
  split; [reflexivity|]; split; [reflexivity|]; split; [reflexivity|].
  destruct (fill_in_blank_hint toUpperCaseAscii blankQ
              (question FILL_IN_BLANK (lit "Porto") None None)
              initialState randomSource randomSource
              eq_refl eq_refl eq_refl) as [Htext Hsame].
  split; [exact Htext|].
  apply Hsame; split; reflexivity.
Defined.

Lemma selection_values_distinct_witness :
  reachable toUpperCaseAscii
    (handlePartClick false (lit "the") initialState)
  /\ NoDup (selectedParts (handlePartClick false (lit "the") initialState)).
Proof.
  assert (Hr : reachable toUpperCaseAscii
                 (handlePartClick false (lit "the") initialState))
    by (apply reach_part, reach_init).
  split; [exact Hr|].
  exact (proj1 (selection_values_distinct toUpperCaseAscii _ Hr)).
Defined.

Lemma selection_keyed_by_value_witness :
  reachable toUpperCaseAscii initialState
  /\ nth_error (poolOf theDogQ) 0 = Some (lit "the")
  /\ includes (selectedParts initialState) (lit "the") = false
  /\ selectedParts (tapPool theDogQ false 0 initialState) = [lit "the"]
  /\ tapPool theDogQ false 3 (tapPool theDogQ false 0 initialState)
     = tapPool theDogQ false 0 initialState.
Proof.
  split; [apply reach_init|]; split; [reflexivity|]; split; [reflexivity|].
  destruct (selection_keyed_by_value toUpperCaseAscii theDogQ initialState 0
              (lit "the") (reach_init toUpperCaseAscii) eq_refl)
    as [Htap _].
  destruct (Htap eq_refl) as [Hsel [_ [_ [Hcopies _]]]].
  split; [exact Hsel|].
  apply Hcopies; reflexivity.
Defined.

Lemma submitted_answers_witness :
  handleInputSubmit false (setInputVal (lit " cat ") initialState)
    = Some (lit "cat")
  /\ lit "cat" = trim (inputVal (setInputVal (lit " cat ") initialState))
  /\ lit "cat" <> [].
Proof.
  split; [reflexivity|].
  destruct (submitted_answers false (setInputVal (lit " cat ") initialState)
              (lit "cat") (lit "cat")) as [Hinput _].
  destruct (Hinput eq_refl) as [_ [Htrim Hne]].
  split; [exact Htrim | exact Hne].
Defined.

(** ** Where the component departs from the statements put to the test *)

(** With the word [the] at the pool positions 0 and 3, a tap on the first
    copy disables the button of the second one as well, so the two copies
    are not independent. *)
Lemma copies_not_independent : ~ copiesIndependent theDogQ 0 3.
Proof.
  unfold copiesIndependent; intros [_ [H _]].
  vm_compute in H; discriminate.
Qed.

(** C2: the answer [paris] is none of the options [London], [Paris],
    [Rome], and it is judged correct. *)
Lemma multiple_choice_outside_options :
  ~ acceptsOnlyOptions toLowerCaseAscii capitalQ (lit "paris").
Proof.
  unfold acceptsOnlyOptions; intros [H _].
  destruct (H eq_refl) as [_ Hin]; simpl in Hin.
  repeat (destruct Hin as [Hin | Hin]; [discriminate|]).
  exact Hin.
Qed.

(** C3: a question of another type judges the answer [paris] correct. *)
Lemma other_type_not_always_incorrect :
  ~ alwaysIncorrect toLowerCaseAscii essayQ.
Proof.
  intros H; specialize (H (lit "paris")); vm_compute in H; discriminate.
Qed.

(** The one place where the verdict and the equality of the normal forms
    part: the empty answer on a sentence without a word, which the guard
    on the falsy answer judges incorrect. *)
Lemma rearrange_empty_answer_rejected :
  ~ acceptsNormalizedEqual toLowerCaseAscii emptySentenceQ [].
Proof.
  unfold acceptsNormalizedEqual; intros [_ H].
  specialize (H eq_refl); vm_compute in H; discriminate.
Qed.

(** C10: a tap on an option that is the empty string submits the empty
    string, and so does the confirmation of a selection that consists of
    one empty fragment. *)
Lemma blank_option_submits_empty :
  ~ neverSubmitsEmpty blankOptionQ initialState
  /\ tapOption blankOptionQ false 0 = Some []
  /\ handleRearrangeSubmit false (tapPool emptySentenceQ false 0 initialState)
     = Some [].
Proof.
  split; [|split; reflexivity].
  intros [H _]; apply (H 0); reflexivity.
Qed.

(** ** The further properties at concrete inputs *)

Lemma multiple_choice_hint_names_wrong_option_witness :
  type capitalQ = MULTIPLE_CHOICE /\ hintText initialState = []
  /\ options capitalQ = Some [lit "London"; lit "Paris"; lit "Rome"]
  /\ exists o,
       In o [lit "London"; lit "Paris"; lit "Rome"]
       /\ o <> correctAnswer capitalQ
       /\ hintText (fst (generateHint toUpperCaseAscii capitalQ initialState
                           randomSource))
          = MC_HINT_PREFIX ++ o ++ MC_HINT_SUFFIX
       /\ consumed (snd (generateHint toUpperCaseAscii capitalQ initialState
                           randomSource)) = S (consumed randomSource).
Proof.
  split; [reflexivity|]; split; [reflexivity|]; split; [reflexivity|].
  apply (multiple_choice_hint_names_wrong_option toUpperCaseAscii capitalQ
           initialState randomSource _ eq_refl eq_refl eq_refl).
  exists (lit "London"); split; [left; reflexivity | discriminate].
Defined.

Lemma first_press_opens_hint_box_witness :
  type singleOptionQ = MULTIPLE_CHOICE
  /\ hintText (fst (toggleHint toUpperCaseAscii singleOptionQ initialState
                      randomSource)) = []
  /\ hintBoxShown false
       (fst (toggleHint toUpperCaseAscii singleOptionQ initialState
               randomSource)) = true.
Proof.
  destruct (first_press_opens_hint_box toUpperCaseAscii singleOptionQ
              randomSource) as [Hbox Hempty].
  split; [reflexivity|]; split; [|exact Hbox].
  apply Hempty; left; split; [reflexivity|].
  intros opts o E Hin; injection E as <-.
  destruct Hin as [<- | []]; reflexivity.
Defined.

Lemma part_click_twice_witness :
  ~ In (lit "cats") (selectedParts initialState)
  /\ handlePartClick false (lit "cats")
       (handlePartClick false (lit "cats") initialState) = initialState.
Proof.
  assert (Hout : ~ In (lit "cats") (selectedParts initialState))
    by (intros []).
  split; [exact Hout|].
  exact (proj1 (part_click_twice (lit "cats") initialState) Hout).
Defined.

Lemma catsQ_taps :
  Forall2 (fun idx v => nth_error (poolOf catsQ) idx = Some v)
    [1; 2; 0] [lit "I"; lit "love"; lit "cats"]
  /\ NoDup [lit "I"; lit "love"; lit "cats"].
Proof.
  split.
  - repeat constructor.
  - repeat constructor; simpl; intros H;
      repeat (destruct H as [H | H]; [discriminate|]); exact H.
Qed.

Lemma taps_select_in_order_witness :
  Forall2 (fun idx v => nth_error (poolOf catsQ) idx = Some v)
    [1; 2; 0] [lit "I"; lit "love"; lit "cats"]
  /\ NoDup [lit "I"; lit "love"; lit "cats"]
  /\ handleRearrangeSubmit false (tapPoolAll catsQ [1; 2; 0] initialState)
     = Some (lit "I love cats").
Proof.
  split; [apply catsQ_taps|]; split; [apply catsQ_taps|].
  exact (proj2 (taps_select_in_order catsQ [1; 2; 0]
                  [lit "I"; lit "love"; lit "cats"]
                  (proj1 catsQ_taps) (proj2 catsQ_taps))).
Defined.

Lemma assembled_sentence_is_correct_witness :
  type catsQ = REARRANGE
  /\ join [SPACE] [lit "I"; lit "love"; lit "cats"] <> []
  /\ normalizeSentence (join [SPACE] [lit "I"; lit "love"; lit "cats"])
     = normalizeSentence (correctAnswer catsQ)
  /\ isCorrect toLowerCaseAscii catsQ
       (handleRearrangeSubmit false (tapPoolAll catsQ [1; 2; 0] initialState))
     = true.
Proof.
  split; [reflexivity|]; split; [discriminate|]; split; [reflexivity|].
  apply (assembled_sentence_is_correct toLowerCaseAscii catsQ [1; 2; 0]
           [lit "I"; lit "love"; lit "cats"] eq_refl
           (proj1 catsQ_taps) (proj2 catsQ_taps));
    [discriminate | reflexivity].
Defined.

Lemma selection_within_pool_witness :
  assembled toUpperCaseAscii catsQ (tapPool catsQ false 1 initialState)
  /\ List.length (selectedParts (tapPool catsQ false 1 initialState))
     <= List.length (poolOf catsQ).
Proof.
  assert (Ha : assembled toUpperCaseAscii catsQ
                 (tapPool catsQ false 1 initialState))
    by (apply asm_pool, asm_init).
  split; [exact Ha|].
  exact (proj2 (proj2 (selection_within_pool toUpperCaseAscii catsQ _ Ha))).
Defined.

Lemma repeated_word_cannot_be_assembled_witness :
  type theDogQ = REARRANGE
  /\ reachable toUpperCaseAscii (handlePartClick false (lit "the") initialState)
  /\ Forall (fun w => isWord w = true)
       (selectedParts (handlePartClick false (lit "the") initialState))
  /\ ~ NoDup (words (correctAnswer theDogQ))
  /\ isCorrect toLowerCaseAscii theDogQ (Some (lit "the")) = false.
Proof.
  assert (Hr : reachable toUpperCaseAscii
                 (handlePartClick false (lit "the") initialState))
    by (apply reach_part, reach_init).
  assert (Hw : Forall (fun w => isWord w = true)
                 (selectedParts (handlePartClick false (lit "the")
                                   initialState)))
    by (repeat constructor).
  assert (Hdup : ~ NoDup (words (correctAnswer theDogQ))).
  { intros H; inversion H as [|x l Hnotin _]; apply Hnotin.
    right; right; left; reflexivity. }
  split; [reflexivity|]; split; [exact Hr|]; split; [exact Hw|];
    split; [exact Hdup|].
  exact (repeated_word_cannot_be_assembled toLowerCaseAscii toUpperCaseAscii
           theDogQ _ false (lit "the") eq_refl Hr Hw Hdup eq_refl).
Defined.

Lemma normalizeSentence_idempotent_witness :
  Forall (fun w => isWord w = true) [lit "I"; lit "love"]
  /\ normalizeSentence (lit "I love") = lit "I love"
  /\ words (normalizeSentence (lit "  I   love  cats "))
     = [lit "I"; lit "love"; lit "cats"].
Proof.
  assert (Hw : Forall (fun w => isWord w = true) [lit "I"; lit "love"])
    by (repeat constructor).
  destruct (normalizeSentence_idempotent (lit "  I   love  cats ")
              [lit "I"; lit "love"]) as [_ [Hwords Hjoin]].
  split; [exact Hw|]; split; [exact (Hjoin Hw) | exact Hwords].
Defined.

Lemma typed_answer_verdict_witness :
  type cityQ = FILL_IN_BLANK
  /\ isCorrect toLowerCaseAscii cityQ
       (handleInputSubmit false (setInputVal (lit " paris ") initialState))
     = true.
Proof.
  split; [reflexivity|].
  apply (proj1 (typed_answer_verdict toLowerCaseAscii cityQ
                  (setInputVal (lit " paris ") initialState) eq_refl)).
  split; [discriminate | reflexivity].
Defined.

Lemma option_style_agrees_with_verdict_witness :
  lit "London" <> []
  /\ isCorrect toLowerCaseAscii capitalQ (Some (lit "London")) = false
  /\ optionButtonStyle capitalQ true (Some (lit "London")) (lit "London")
     = StyleWrong.
Proof.
  assert (Hne : lit "London" <> []) by discriminate.
  split; [exact Hne|]; split; [reflexivity|].
  destruct (option_style_agrees_with_verdict toLowerCaseAscii capitalQ
              (lit "London") (lit "London") Hne) as [_ [Hwrong _]].
  apply Hwrong; reflexivity.
Defined.

Lemma audio_src_drops_first_space_witness :
  audioUrl audioQ = Some (lit "/audio/unit 1 a.mp3")
  /\ lit "/audio/unit 1 a.mp3" <> []
  /\ exists src,
       audioPlayerSrc audioQ = Some src
       /\ src = lit "/audio/unit1 a.mp3"
       /\ In SPACE src.
Proof.
  split; [reflexivity|]; split; [discriminate|].
  destruct (audio_src_drops_first_space audioQ (lit "/audio/unit 1 a.mp3")
              eq_refl ltac:(discriminate))
    as [src [Hsrc [Hcut [_ [_ [_ [_ Hleft]]]]]]].
  exists src; split; [exact Hsrc|]; split.
  - apply (Hcut (lit "/audio/unit") (lit "1 a.mp3")); [reflexivity|].
    simpl; intros H.
    repeat (destruct H as [H | H]; [discriminate|]); exact H.
  - apply Hleft; vm_compute; lia.
Defined.

Lemma rearrange_hint_by_length_witness :
  type catsQ = REARRANGE /\ hintText initialState = []
  /\ List.length (split SPACE (correctAnswer catsQ)) < 4
  /\ hintText (fst (generateHint toUpperCaseAscii catsQ initialState
                      randomSource))
     = REARRANGE_HINT_PREFIX ++ lit "I" ++ REARRANGE_HINT_SUFFIX.
Proof.
  split; [reflexivity|]; split; [reflexivity|].
  assert (Hlen : List.length (split SPACE (correctAnswer catsQ)) < 4)
    by (simpl; lia).
  split; [exact Hlen|].
  destruct (rearrange_hint_by_length toUpperCaseAscii catsQ initialState
              randomSource eq_refl eq_refl) as [Hshort _].
  exact (Hshort Hlen).
Defined.

Lemma fill_in_blank_hint_of_blank_answer_witness :
  type spacesQ = FILL_IN_BLANK /\ hintText initialState = []
  /\ forallb isWhiteSpace (correctAnswer spacesQ) = true
  /\ hintText (fst (generateHint toUpperCaseAscii spacesQ initialState
                      randomSource))
     = FIB_HINT_PREFIX ++ lit "0" ++ FIB_HINT_MIDDLE ++ FIB_HINT_SUFFIX.
Proof.
  split; [reflexivity|]; split; [reflexivity|]; split; [reflexivity|].
  exact (fill_in_blank_hint_of_blank_answer toUpperCaseAscii spacesQ
           initialState randomSource eq_refl eq_refl eq_refl).
Defined.

Lemma shown_hint_is_first_draw_witness :
  showHint (fst (run toUpperCaseAscii capitalQ
                   [PressHint; PressHint; EditInput (lit "x"); PressHint]
                   (initialState, randomSource))) = true
  /\ hintText (fst (run toUpperCaseAscii capitalQ
                      [PressHint; PressHint; EditInput (lit "x"); PressHint]
                      (initialState, randomSource)))
     = fst (hintSwitch toUpperCaseAscii capitalQ randomSource).
Proof.
  split; [reflexivity|].
  apply (proj1 (shown_hint_is_first_draw toUpperCaseAscii capitalQ
                  randomSource
                  [PressHint; PressHint; EditInput (lit "x"); PressHint])).
  reflexivity.
Defined.

Lemma tapped_option_verdict_witness :
  type capitalQ = MULTIPLE_CHOICE
  /\ tapOption capitalQ false 1 = Some (lit "Paris")
  /\ isCorrect toLowerCaseAscii capitalQ (Some (lit "Paris")) = true.
Proof.
  split; [reflexivity|]; split; [reflexivity|].
  destruct (tapped_option_verdict toLowerCaseAscii capitalQ false 1
              (lit "Paris") eq_refl eq_refl) as [_ [_ [_ Hsame]]].
  apply Hsame; [reflexivity | discriminate].
Defined.
